(** * Release ranking, history classification and release selection

    A shallow embedding of the per-package computations of
    [data/convert.py] (rank assignment) and [data/prepare.py] (update kind,
    backport detection and attribution, constraint descriptors, selected
    release).  A pandas frame is a list of row records; a float column that
    may hold NaN (or a date column that may hold NaT) is an [option Z]
    column.  Version components are integral floats and dates are
    timestamps, both embedded in [Z].  [sort_values] is [merge_sort] on the
    order of its key columns; rows with equal keys come out in the order
    [merge_sort] leaves them, and what is proved about single rows of a
    package assumes its ranks distinct, as [convert.py] makes them. *)

From stdpp Require Import base numbers option list sorting strings gmap.

Local Open Scope Z_scope.

(** ** Frame primitives *)

(** [Series.cumsum]. *)
Fixpoint cumsum_from (acc : Z) (l : list Z) : list Z :=
  match l with
  | [] => []
  | x :: l' => (acc + x) :: cumsum_from (acc + x) l'
  end.

Definition cumsum (l : list Z) : list Z := cumsum_from 0 l.

(** [d.assign(N=1).N.cumsum()]: the running count of the rows of [d]. *)
Definition row_numbers {A} (d : list A) : list Z := cumsum ((λ _, 1) <$> d).

(** [Series.shift(1)]: every value moves one row down, the first row gets
    NaN. *)
Fixpoint shift_from {A} (prev : option A) (l : list A) : list (option A) :=
  match l with
  | [] => []
  | x :: l' => prev :: shift_from (Some x) l'
  end.

Definition shift1 {A} (l : list A) : list (option A) := shift_from None l.

(** [Series.expanding().max()]: the running maximum, the current row
    included. *)
Fixpoint expanding_from (acc : Z) (l : list Z) : list Z :=
  match l with
  | [] => []
  | x :: l' => Z.max acc x :: expanding_from (Z.max acc x) l'
  end.

Definition expanding_max (l : list Z) : list Z :=
  match l with
  | [] => []
  | x :: l' => x :: expanding_from x l'
  end.

(** The maximum of a column, undefined on an empty one. *)
Definition max_of (l : list Z) : option Z :=
  match l with
  | [] => None
  | x :: l' => Some (foldr Z.max x l')
  end.

(** [DataFrame.merge(right, how='left', left_on=.., right_on=..)]: the rows
    of the left frame in their order, each one joined with every matching
    row of the right frame, or kept once with missing right columns when
    nothing matches. *)
Definition merge_left {A B C} (on : A → B → Prop) `{∀ a b, Decision (on a b)}
    (joined : A → option B → C) (left : list A) (right : list B) : list C :=
  a ← left;
  match filter (on a) right with
  | [] => [joined a None]
  | ms => (λ b, joined a (Some b)) <$> ms
  end.

(** [drop_duplicates()] on a column: the first occurrence of each value, in
    order of appearance. *)
Fixpoint drop_duplicates_from {K} `{EqDecision K} (seen : list K) (l : list K) : list K :=
  match l with
  | [] => []
  | k :: l' =>
      if decide (k ∈ seen) then drop_duplicates_from seen l'
      else k :: drop_duplicates_from (k :: seen) l'
  end.

Definition drop_duplicates {K} `{EqDecision K} (l : list K) : list K :=
  drop_duplicates_from [] l.

(** [groupby(key, sort=False)]: one group per distinct key, in order of
    first appearance, each with its rows in frame order. *)
Definition groupby {A K} `{EqDecision K} (key : A → K) (df : list A) : list (K * list A) :=
  (λ k, (k, filter (λ a, key a = k) df)) <$> drop_duplicates (key <$> df).

(** ** Releases *)

(** A row of [df_releases] as [convert.py] writes it. *)
Record Release := mkRelease {
  package : string;
  version : string;
  major : Z;
  minor : Z;
  patch : Z;
  rank : Z;
  date : Z;
  rank_date : Z
}.

Global Instance Release_eq_dec : EqDecision Release.
Proof. solve_decision. Defined.

(** Ascending order on the columns [major, minor, patch]. *)
Definition triple_le (a b : Z * Z * Z) : Prop :=
  let '(a1, a2, a3) := a in
  let '(b1, b2, b3) := b in
  a1 < b1 ∨ (a1 = b1 ∧ (a2 < b2 ∨ (a2 = b2 ∧ a3 ≤ b3))).

Definition triple_lt (a b : Z * Z * Z) : Prop :=
  let '(a1, a2, a3) := a in
  let '(b1, b2, b3) := b in
  a1 < b1 ∨ (a1 = b1 ∧ (a2 < b2 ∨ (a2 = b2 ∧ a3 < b3))).

Global Instance triple_le_dec a b : Decision (triple_le a b).
Proof. destruct a as [[??]?], b as [[??]?]; simpl; apply _. Defined.

(** Ascending order on the columns [date, rank]. *)
Definition pair_le (a b : Z * Z) : Prop :=
  a.1 < b.1 ∨ (a.1 = b.1 ∧ a.2 ≤ b.2).

Global Instance pair_le_dec a b : Decision (pair_le a b).
Proof. unfold pair_le; apply _. Defined.

Definition triple (r : Release) : Z * Z * Z := (major r, minor r, patch r).
Definition date_rank_key (r : Release) : Z * Z := (date r, rank r).

(** [sort_values(['date', 'rank'])] compares rows this way. *)
Definition chron_le (a b : Release) : Prop := pair_le (date_rank_key a) (date_rank_key b).

Global Instance chron_le_dec a b : Decision (chron_le a b).
Proof. unfold chron_le; apply _. Defined.

(** ** Versions, intervals and failures

    [prepare.py] imports [Version] from [version] and the parsers and
    [parse_or_empty] from [parsers]; neither module is among the sources.
    A version is the triple the script builds and reads
    ([Version(float('inf'), 0, 0)], [base.major], [base.minor]); what the
    script asks of an interval is kept as an interface. *)

(** A version component: a number or [float('inf')]. *)
Inductive Component := Finite (n : Z) | Infinity.

Record Version := mkVersion {
  vmajor : Component;
  vminor : Component;
  vpatch : Component
}.

Global Instance Component_eq_dec : EqDecision Component.
Proof. solve_decision. Defined.
Global Instance Version_eq_dec : EqDecision Version.
Proof. solve_decision. Defined.

(** The operations of [version] and [parsers] that [prepare.py] uses. *)
Class Lib (Interval : Type) := {
  (** [Version(v)] for a version string [v] *)
  Version_of_string : string → Version;
  (** [interval.empty] *)
  interval_empty : Interval → bool;
  (** [interval.lower] *)
  interval_lower : Interval → Version;
  (** [version in interval] *)
  interval_contains : Version → Interval → bool;
  (** [version > interval] *)
  version_above : Version → Interval → bool;
  (** [Interval.empty()] *)
  empty_interval : Interval
}.

(** A Python call returns a value or raises. *)
Inductive Exception := ParseFailure (raw : string) | KeyError (key : string).

Inductive Outcome (A : Type) := Return (a : A) | Raise (e : Exception).
Global Arguments Return {A} a.
Global Arguments Raise {A} e.

Global Instance Outcome_ret : MRet Outcome := λ A a, Return a.
Global Instance Outcome_bind : MBind Outcome := λ A B f m,
  match m with
  | Return a => f a
  | Raise e => Raise e
  end.
Global Instance Outcome_fmap : FMap Outcome := λ A B f m,
  match m with
  | Return a => Return (f a)
  | Raise e => Raise e
  end.

Module Convert.

(** A row of a package group before ranking: the columns [package],
    [version], [major], [minor], [patch] and [date]. *)
Record Row := mkRow {
  r_package : string;
  r_version : string;
  r_major : Z;
  r_minor : Z;
  r_patch : Z;
  r_date : Z
}.

Definition r_triple (r : Row) : Z * Z * Z := (r_major r, r_minor r, r_patch r).

(** [sort_values(['major', 'minor', 'patch'])]. *)
Definition version_le (a b : Row) : Prop := triple_le (r_triple a) (r_triple b).

Global Instance version_le_dec a b : Decision (version_le a b).
Proof. unfold version_le; apply _. Defined.

(** The frame after [.assign(rank=...)]. *)
Definition with_rank (r : Row) (k : Z) : Release :=
  mkRelease (r_package r) (r_version r) (r_major r) (r_minor r) (r_patch r) k (r_date r) 0.

Definition set_rank_date (r : Release) (k : Z) : Release :=
  mkRelease (package r) (version r) (major r) (minor r) (patch r) (rank r) (date r) k.

Definition unranked (r : Release) : Row :=
  mkRow (package r) (version r) (major r) (minor r) (patch r) (date r).

(** The body of the loop over [df_releases.groupby('package')]. *)
Definition rank_group (group : list Row) : list Release :=
  let by_version := merge_sort version_le group in
  let ranked := zip_with with_rank by_version (row_numbers by_version) in
  let by_date := merge_sort chron_le ranked in
  zip_with set_rank_date by_date (row_numbers by_date).

End Convert.

Module Prepare.

(** ** Update kind ([prepare.py], the first [assign] block) *)

(** The four boolean columns and the labels [replace] turns them into. *)
Inductive Flag := kinitial | kmajor | kminor | kpatch.
Inductive Kind := Initial | Major | Minor | Patch.

Global Instance Flag_eq_dec : EqDecision Flag.
Proof. solve_decision. Defined.
Global Instance Kind_eq_dec : EqDecision Kind.
Proof. solve_decision. Defined.

Definition replace_kind (f : Flag) : Kind :=
  match f with
  | kinitial => Initial
  | kmajor => Major
  | kminor => Minor
  | kpatch => Patch
  end.

(** Float arithmetic on a value and a shifted (NaN-able) value. *)
Definition isnull {A} (x : option A) : bool :=
  match x with None => true | Some _ => false end.

Definition fsub (x : Z) (y : option Z) : option Z := (λ y, x - y) <$> y.

(** [clip(0, 1)]; NaN stays NaN. *)
Definition clip01 (x : option Z) : option Z := (λ x, Z.min (Z.max x 0) 1) <$> x.

(** [astype(bool)]: zero is false, everything else (NaN too) is true. *)
Definition astype_bool (x : option Z) : bool :=
  match x with
  | None => true
  | Some v => bool_decide (v ≠ 0)
  end.

(** [idxmax(axis=1)] over boolean columns: the label of the first column
    that holds the row's maximum. *)
Fixpoint first_with (m : bool) (cols : list (Flag * bool)) : option Flag :=
  match cols with
  | [] => None
  | (f, b) :: cols' => if bool_decide (b = m) then Some f else first_with m cols'
  end.

Definition idxmax (c0 : Flag * bool) (cols : list (Flag * bool)) : Flag :=
  let m := foldr orb false (snd <$> c0 :: cols) in
  default c0.1 (first_with m (c0 :: cols)).

(** The kind of row [r], whose predecessor in rank order is [p]; a column
    [d[c].shift(1)] read at [r] is column [c] of [p]. *)
Definition kind_of (r : Release) (p : option Release) : Kind :=
  replace_kind
    (idxmax
       (kinitial, isnull (major <$> p))
       [ (kmajor, astype_bool (clip01 (fsub (major r) (major <$> p))));
         (kminor, astype_bool (clip01 (fsub (minor r) (minor <$> p))));
         (kpatch, astype_bool (clip01 (fsub (patch r) (patch <$> p)))) ]).

Record Kinded := mkKinded { rel : Release; kind : Kind }.

(** [sort_values('rank')]. *)
Definition rank_le (a b : Release) : Prop := rank a ≤ rank b.

Global Instance rank_le_dec a b : Decision (rank_le a b).
Proof. unfold rank_le; apply _. Defined.

Definition assign_kind (group : list Release) : list Kinded :=
  let d := merge_sort rank_le group in
  zip_with (λ r p, mkKinded r (kind_of r p)) d (shift1 d).

(** ** Backport detection (the [highest_major] / [highest_rank] block) *)

Definition chron_leK (a b : Kinded) : Prop := chron_le (rel a) (rel b).

Global Instance chron_leK_dec a b : Decision (chron_leK a b).
Proof. unfold chron_leK; apply _. Defined.

(** The float column [backported] holds [highest_rank] or NaN. *)
Record Flagged := mkFlagged { f_row : Kinded; f_backported : option Z }.

(** [highest_rank.where(major < highest_major, nan)]. *)
Definition where_backported (k : Kinded) (h : Z * Z) : Flagged :=
  mkFlagged k (if decide (major (rel k) < h.1) then Some h.2 else None).

Definition flag_backported (d : list Kinded) : list Flagged :=
  let highest_major := expanding_max ((λ k, major (rel k)) <$> d) in
  let highest_rank := expanding_max ((λ k, rank (rel k)) <$> d) in
  zip_with where_backported d (zip highest_major highest_rank).

(** ** Backport attribution (the [pipe] block) *)

(** [pandas.to_datetime('1900-01-01')] in nanoseconds since the epoch. *)
Definition date_1900 : Z := -2208988800000000000.

Record Joined1 := mkJoined1 {
  j_row : Flagged;
  date_previous : option Z;
  rank_previous : option Z
}.

Record Joined2 := mkJoined2 {
  j_prev : Joined1;
  date_next : option Z;
  rank_next : option Z
}.

Record Classified := mkClassified {
  c_rel : Release;
  c_kind : Kind;
  backported : bool;
  backported_from : option Z
}.

Global Instance Classified_eq_dec : EqDecision Classified.
Proof. solve_decision. Defined.

(** [abs(date - other)]; NaT propagates. *)
Definition abs_delta (d : Z) (other : option Z) : option Z := (λ o, Z.abs (d - o)) <$> other.

(** [<=] on timedeltas; a comparison with NaT is false. *)
Definition delta_le (x y : option Z) : bool :=
  match x, y with
  | Some a, Some b => bool_decide (a ≤ b)
  | _, _ => false
  end.

(** The key of the left frame is the float column [backported], the key of
    the right frame the integer column [rank]: NaN matches nothing. *)
Definition on_backported (key : option Z) (b : Z * Z) : Prop := key = Some b.2.

Global Instance on_backported_dec key b : Decision (on_backported key b).
Proof. unfold on_backported; apply _. Defined.

Definition closest (j : Joined2) : Classified :=
  let f := j_row (j_prev j) in
  let r := rel (f_row f) in
  let rank_next := (λ k, k + 1) <$> rank_next j in
  let date_next := Some (default date_1900 (date_next j)) in
  let from :=
    if delta_le (abs_delta (date r) (date_previous (j_prev j)))
                (abs_delta (date r) date_next)
    then rank_previous (j_prev j) else rank_next in
  mkClassified r (kind (f_row f)) (negb (isnull (f_backported f))) from.

Definition attribute (df : list Flagged) : list Classified :=
  let date_rank := (λ f, date_rank_key (rel (f_row f))) <$> df in
  let previous :=
    merge_left (λ f, on_backported (f_backported f))
      (λ f b, mkJoined1 f (fst <$> b) (snd <$> b)) df date_rank in
  let next :=
    merge_left (λ j, on_backported (f_backported (j_row j)))
      (λ j b, mkJoined2 j (fst <$> b) (snd <$> b)) previous
      ((λ b : Z * Z, (b.1, b.2 - 1)) <$> date_rank) in
  closest <$> next.

(** The body of the loop over the required packages. *)
Definition classify_group (group : list Release) : list Classified :=
  attribute (flag_backported (merge_sort chron_leK (assign_kind group))).

(** *** Row-wise reading of the attribution

    The two joins read as a scan: each row looks up the release whose rank
    is its [backported] value and the release whose rank is one more. *)
Definition release_of_rank (rels : list Release) (k : Z) : option Release :=
  head (filter (λ r, rank r = k) rels).

Definition attribute_row (rels : list Release) (f : Flagged) : Classified :=
  let previous := f_backported f ≫= release_of_rank rels in
  let next := f_backported f ≫= (λ k, release_of_rank rels (k + 1)) in
  closest
    (mkJoined2 (mkJoined1 f (date <$> previous) (rank <$> previous))
       (date <$> next) ((λ n, rank n - 1) <$> next)).

(** [pandas.concat(data).sort_values(['package', 'rank'])] restricted to one
    package. *)
Definition crank_le (a b : Classified) : Prop := rank_le (c_rel a) (c_rel b).

Global Instance crank_le_dec a b : Decision (crank_le a b).
Proof. unfold crank_le; apply _. Defined.

Definition required_of (group : list Release) : list Classified :=
  merge_sort crank_le (classify_group group).


(** ** Constraints and their descriptors (the loop over distinct constraints) *)

(** A row of [df_dependents]. *)
Record Dependent := mkDependent {
  source : string;
  dep_version : string;
  dep_rank : Z;
  target : string;
  constraint : string
}.

Global Instance Dependent_eq_dec : EqDecision Dependent.
Proof. solve_decision. Defined.

Section selection.
Context {Interval : Type} `{Lib Interval}.

(** [parser.parse]: an interval, or a raised failure. *)
Definition Parser : Type := string → Outcome Interval.

(** Modelled from the spec: [parse_or_empty] is defined in [parsers.py],
    which is not among the sources.  It wraps [parse]: on any parse
    failure it returns [Interval.empty()] rather than propagating the
    failure. *)
Definition parse_or_empty (parser : Parser) (raw : string) : Outcome Interval :=
  match parser raw with
  | Return interval => Return interval
  | Raise _ => Return empty_interval
  end.

(** The dictionary [d] stored per constraint. *)
Record Descr := mkDescr {
  d_interval : Interval;
  d_empty : bool;
  d_major : bool;
  d_minor : bool;
  d_patch : bool;
  d_dev : bool
}.

Definition describe (interval : Interval) : Descr :=
  if interval_empty interval then
    mkDescr interval true false false false false
  else
    let base := interval_lower interval in
    mkDescr interval false
      (interval_contains (mkVersion Infinity (Finite 0) (Finite 0)) interval)
      (interval_contains (mkVersion (vmajor base) Infinity (Finite 0)) interval)
      (interval_contains (mkVersion (vmajor base) (vminor base) Infinity) interval)
      (version_above (mkVersion (Finite 1) (Finite 0) (Finite 0)) interval).

(** The loop [for constraint in ...: intervals[constraint] = d]. *)
Fixpoint convert_constraints (parser : Parser) (constraints : list string)
    (intervals : gmap string Descr) : Outcome (gmap string Descr) :=
  match constraints with
  | [] => Return intervals
  | constraint :: rest =>
      interval ← parse_or_empty parser constraint;
      convert_constraints parser rest (<[constraint := describe interval]> intervals)
  end.

Definition constraint_intervals (parser : Parser) (df_dependents : list Dependent)
    : Outcome (gmap string Descr) :=
  convert_constraints parser (drop_duplicates (constraint <$> df_dependents)) ∅.

(** ** Selected release (the loop over targets and constraints) *)

(** A row of [target_releases]: the [version] column holds [Version(v)]. *)
Record Candidate := mkCandidate { cand : Classified; cand_version : Version }.

(** [sort_values('rank', ascending=False)]. *)
Definition rank_ge (a b : Candidate) : Prop :=
  rank (c_rel (cand b)) ≤ rank (c_rel (cand a)).

Global Instance rank_ge_dec a b : Decision (rank_ge a b).
Proof. unfold rank_ge; apply _. Defined.

Definition target_releases (df_required : list Classified) (target : string)
    : list Candidate :=
  merge_sort rank_ge
    ((λ c, mkCandidate c (Version_of_string (version (c_rel c)))) <$>
     filter (λ c, package (c_rel c) = target) df_required).

(** The scan [for release in target_releases.itertuples()] with its
    [break]; [numpy.nan] when nothing is accepted. *)
Fixpoint highest_accepted (releases : list Candidate) (interval : Interval)
    : option Z :=
  match releases with
  | [] => None
  | release :: rest =>
      if interval_contains (cand_version release) interval
      then Some (rank (c_rel (cand release)))
      else highest_accepted rest interval
  end.

(** The selected release in the words of the specification: the highest
    rank among the releases of the target that the interval contains,
    absent when it contains none. *)
Definition accepted (c : Classified) (interval : Interval) : Prop :=
  interval_contains (Version_of_string (version (c_rel c))) interval = true.

Definition highest_rank_accepted (df_required : list Classified) (target : string)
    (interval : Interval) (sel : option Z) : Prop :=
  match sel with
  | Some k =>
      ∃ c, c ∈ df_required ∧ package (c_rel c) = target ∧
           rank (c_rel c) = k ∧ accepted c interval ∧
           ∀ c', c' ∈ df_required → package (c_rel c') = target →
                 accepted c' interval → rank (c_rel c') ≤ k
  | None =>
      ∀ c, c ∈ df_required → package (c_rel c) = target → ¬ accepted c interval
  end.

(** A row of the frame [cgroup.assign(...)]. *)
Record Resolved := mkResolved {
  edge : Dependent;
  r_interval : Interval;
  selected : option Z;
  c_empty : bool;
  c_dev : bool;
  c_major : bool;
  c_minor : bool;
  c_patch : bool
}.

(** [intervals[constraint]] *)
Definition lookup_interval (intervals : gmap string Descr) (key : string)
    : Outcome Descr :=
  match intervals !! key with
  | Some d => Return d
  | None => Raise (KeyError key)
  end.

Definition assign_selected (d : Descr) (sel : option Z) (e : Dependent) : Resolved :=
  mkResolved e (d_interval d) sel (d_empty d) (d_dev d) (d_major d) (d_minor d) (d_patch d).

(** The body of the inner loop, for one constraint group of one target. *)
Definition select_constraint (releases : list Candidate)
    (intervals : gmap string Descr) (cg : string * list Dependent)
    : Outcome (list Resolved) :=
  d ← lookup_interval intervals cg.1;
  mret (assign_selected d (highest_accepted releases (d_interval d)) <$> cg.2).

(** The body of the outer loop, for one target group. *)
Definition select_target (df_required : list Classified)
    (intervals : gmap string Descr) (tg : string * list Dependent)
    : Outcome (list (list Resolved)) :=
  mapM (select_constraint (target_releases df_required tg.1) intervals)
       (groupby constraint tg.2).

(** [data] after both loops, then [pandas.concat(data)]. *)
Definition identify_selected (df_required : list Classified)
    (intervals : gmap string Descr) (df_dependents : list Dependent)
    : Outcome (list Resolved) :=
  data ← mapM (select_target df_required intervals) (groupby target df_dependents);
  mret (mjoin (mjoin data)).

Definition resolve_dependents (parser : Parser) (df_required : list Classified)
    (df_dependents : list Dependent) : Outcome (list Resolved) :=
  intervals ← constraint_intervals parser df_dependents;
  identify_selected df_required intervals df_dependents.
End selection.

Global Arguments Parser : clear implicits.
Global Arguments Descr : clear implicits.
Global Arguments Resolved : clear implicits.

End Prepare.

(** * The version order and the interval type, from the specification *)

Module SpecInterval.

(** Modelled from the spec: the order of [Version] ([version.py] is not
    among the sources).  Versions compare lexicographically over (major,
    minor, patch), and the infinity sentinel is greater than every finite
    number. *)
Definition component_compare (a b : Component) : comparison :=
  match a, b with
  | Finite x, Finite y => x ?= y
  | Finite _, Infinity => Lt
  | Infinity, Finite _ => Gt
  | Infinity, Infinity => Eq
  end.

Definition version_compare (a b : Version) : comparison :=
  match component_compare (vmajor a) (vmajor b) with
  | Eq =>
      match component_compare (vminor a) (vminor b) with
      | Eq => component_compare (vpatch a) (vpatch b)
      | c => c
      end
  | c => c
  end.

Definition version_lt (a b : Version) : bool :=
  match version_compare a b with Lt => true | _ => false end.

Definition version_leb (a b : Version) : bool := negb (version_lt b a).

(** Modelled from the spec: the [Interval] of [parsers.py] (not among the
    sources), a finite, possibly empty list of ranges, each with an
    inclusive lower bound and an exclusive upper bound; the infinity
    sentinel as upper bound means unbounded above. *)
Record Range := mkRange { lower : Version; upper : Version }.

Definition Interval : Type := list Range.

Definition unbounded : Version := mkVersion Infinity Infinity Infinity.

Definition in_range (v : Version) (r : Range) : bool :=
  version_leb (lower r) v && version_lt v (upper r).

(** [contains] scans the ranges in order. *)
Definition contains (v : Version) (i : Interval) : bool := existsb (in_range v) i.

Definition is_empty (i : Interval) : bool :=
  match i with [] => true | _ => false end.

(** [lowest_bound] is the lower bound of the first range.  The spec leaves
    it undefined on the empty interval, where the descriptors never ask for
    it; the sentinel stands there. *)
Definition lowest_bound (i : Interval) : Version :=
  match i with
  | r :: _ => lower r
  | [] => unbounded
  end.

(** A version is above an interval when no range reaches it. *)
Definition above (v : Version) (i : Interval) : bool :=
  forallb (λ r, version_leb (upper r) v) i.

(** The interval with the upper bound of its last range widened to
    unbounded. *)
Fixpoint widen_upper (i : Interval) : Interval :=
  match i with
  | [] => []
  | r :: rest =>
      match rest with
      | [] => [mkRange (lower r) unbounded]
      | _ => r :: widen_upper rest
      end
  end.

(** Modelled from the spec: [Version(v)] on a version string of the strict
    three-component numeric form, the only strings [convert.py] lets
    through; any other string stands for 0.0.0 here. *)
Definition digit_of (c : Ascii.ascii) : option Z :=
  let n := Z.of_N (Ascii.N_of_ascii c) in
  if decide (48 ≤ n ≤ 57) then Some (n - 48) else None.

Fixpoint decimal_from (acc : Z) (s : string) : option Z :=
  match s with
  | EmptyString => Some acc
  | String c s' => d ← digit_of c; decimal_from (10 * acc + d) s'
  end.

Definition decimal (s : string) : option Z :=
  match s with
  | EmptyString => None
  | _ => decimal_from 0 s
  end.

Fixpoint fields (s : string) : list string :=
  match s with
  | EmptyString => [EmptyString]
  | String c s' =>
      if decide (c = Ascii.ascii_of_nat 46) then EmptyString :: fields s'
      else
        match fields s' with
        | f :: fs => String c f :: fs
        | [] => [String c EmptyString]
        end
  end.

Definition of_string (s : string) : Version :=
  match decimal <$> fields s with
  | [Some a; Some b; Some c] => mkVersion (Finite a) (Finite b) (Finite c)
  | _ => mkVersion (Finite 0) (Finite 0) (Finite 0)
  end.

Global Instance spec_lib : Lib Interval := {|
  Version_of_string := of_string;
  interval_empty := is_empty;
  interval_lower := lowest_bound;
  interval_contains := contains;
  version_above := above;
  empty_interval := []
|}.

Definition version (a b c : Z) : Version := mkVersion (Finite a) (Finite b) (Finite c).

End SpecInterval.

(** * Concrete packages and constraints *)

Module Fixtures.
Import Prepare SpecInterval.

Definition release (v : string) (maj mnr pat rk d rd : Z) : Release :=
  mkRelease "pkg" v maj mnr pat rk d rd.

(** Four releases in version order; 2.0.0 comes out before 1.1.0, and 3.0.0
    as long after 1.1.0 as 2.0.0 came before it. *)
Definition history : list Release :=
  [ release "1.0.0" 1 0 0 1 0 1;
    release "2.0.0" 2 0 0 3 10 2;
    release "1.1.0" 1 1 0 2 20 3;
    release "3.0.0" 3 0 0 4 30 4 ].

(** The same, with 3.0.0 one tick later: 2.0.0 is strictly closer. *)
Definition history_late : list Release :=
  [ release "1.0.0" 1 0 0 1 0 1;
    release "2.0.0" 2 0 0 3 10 2;
    release "1.1.0" 1 1 0 2 20 3;
    release "3.0.0" 3 0 0 4 31 4 ].

(** The same, with 3.0.0 five ticks after 1.1.0: 3.0.0 is strictly closer. *)
Definition history_early : list Release :=
  [ release "1.0.0" 1 0 0 1 0 1;
    release "2.0.0" 2 0 0 3 10 2;
    release "1.1.0" 1 1 0 2 20 3;
    release "3.0.0" 3 0 0 4 25 4 ].

(** No release follows 2.0.0 in rank order. *)
Definition history_short : list Release :=
  [ release "1.0.0" 1 0 0 1 0 1;
    release "2.0.0" 2 0 0 3 10 2;
    release "1.1.0" 1 1 0 2 20 3 ].

(** Two rows with the same version triple. *)
Definition repeated : list Release :=
  [ release "1.0.0" 1 0 0 1 0 1;
    release "1.0.0" 1 0 0 2 10 2 ].

(** The releases 1.0.0, 1.5.0, 1.9.0 and 2.0.0 of one package. *)
Definition four_releases : list Release :=
  [ release "1.0.0" 1 0 0 1 0 1;
    release "1.5.0" 1 5 0 2 10 2;
    release "1.9.0" 1 9 0 3 20 3;
    release "2.0.0" 2 0 0 4 30 4 ].

Definition unranked_rows : list Convert.Row :=
  [ Convert.mkRow "pkg" "2.0.0" 2 0 0 10;
    Convert.mkRow "pkg" "1.0.0" 1 0 0 0;
    Convert.mkRow "pkg" "1.1.0" 1 1 0 10 ].

(** [[1.2.0, 2.0.0)] and the same interval without its upper bound. *)
Definition narrow : Interval := [mkRange (version 1 2 0) (version 2 0 0)].
Definition wide : Interval := widen_upper narrow.

(** A parser that knows two constraint strings and fails on the rest. *)
Definition two_constraints : Parser Interval := λ raw,
  if decide (raw = ">=1.2.0,<2.0.0") then Return narrow
  else if decide (raw = ">=1.2.0") then Return wide
  else Raise (ParseFailure raw).

Definition edges : list Dependent :=
  [ mkDependent "app" "0.1.0" 1 "pkg" ">=1.2.0,<2.0.0";
    mkDependent "lib" "0.3.0" 2 "pkg" ">=1.2.0";
    mkDependent "cli" "1.0.0" 1 "pkg" "latest";
    mkDependent "web" "2.0.0" 5 "pkg" ">=1.2.0,<2.0.0" ].

End Fixtures.

(** * The whole of [convert.py]

    The body of the loop over the ecosystems, from the frames read from
    disk (after their [dropna]) to the two frames written back. *)

(** [drop_duplicates(subset, keep='last')]: a row stays when no later row
    has its key. *)
Fixpoint drop_duplicates_last {A K} `{EqDecision K} (key : A → K) (l : list A) : list A :=
  match l with
  | [] => []
  | x :: l' =>
      if decide (key x ∈ key <$> l') then drop_duplicates_last key l'
      else x :: drop_duplicates_last key l'
  end.

(** [drop_duplicates(subset)]: a row stays when no earlier row has its
    key. *)
Fixpoint drop_duplicates_on_from {A K} `{EqDecision K} (key : A → K) (seen : list K)
    (l : list A) : list A :=
  match l with
  | [] => []
  | x :: l' =>
      if decide (key x ∈ seen) then drop_duplicates_on_from key seen l'
      else x :: drop_duplicates_on_from key (key x :: seen) l'
  end.

Definition drop_duplicates_on {A K} `{EqDecision K} (key : A → K) (l : list A) : list A :=
  drop_duplicates_on_from key [] l.

(** [DataFrame.merge(right, how='inner', left_on=.., right_on=..)]: the rows
    of the left frame in their order, each one joined with every matching
    row of the right frame. *)
Definition merge_inner {A B C} (on : A → B → Prop) `{∀ a b, Decision (on a b)}
    (joined : A → B → C) (left : list A) (right : list B) : list C :=
  a ← left; joined a <$> filter (on a) right.

(** [pandas.concat(data)]: the frames one after the other; with no frame
    at all it raises [ValueError] ("No objects to concatenate"). *)
Definition pandas_concat {A} (data : list (list A)) : option (list A) :=
  match data with
  | [] => None
  | _ => Some (mjoin data)
  end.

(** Python compares strings by code point, [String.compare] by byte; on
    UTF-8 text the two orders agree. *)
Definition str_lt (a b : string) : Prop := String.compare a b = Lt.

Global Instance str_lt_dec a b : Decision (str_lt a b).
Proof. unfold str_lt; apply _. Defined.

(** [str.startswith(prefixes)] and [str.endswith(suffixes)] with a tuple:
    any of them. *)
Definition startswith (prefixes : list string) (s : string) : bool :=
  existsb (λ p, String.prefix p s) prefixes.

Definition has_suffix (suffix s : string) : bool :=
  let n := String.length s in
  let m := String.length suffix in
  if decide (m ≤ n)%nat then String.eqb (String.substring (n - m) m s) suffix else false.

Definition endswith (suffixes : list string) (s : string) : bool :=
  existsb (λ p, has_suffix p s) suffixes.

Module ConvertAll.
Import Convert.

(** A row of the raw releases file. *)
Record Raw := mkRaw {
  raw_package : string;
  raw_version : string;
  raw_date : Z
}.

(** A row of the raw dependencies file. *)
Record RawDependency := mkRawDependency {
  raw_source : string;
  raw_source_version : string;
  raw_target : string;
  raw_constraint : string
}.

Global Instance Raw_eq_dec : EqDecision Raw.
Proof. solve_decision. Defined.
Global Instance RawDependency_eq_dec : EqDecision RawDependency.
Proof. solve_decision. Defined.

Definition exclude_prefixes : list string :=
  [ "@ryancavanaugh/pkg"; "all-packages-"; "cool-"; "neat-"; "wowdude-";
    "npmdoc-"; "npmtest-"; "npm-ghost-" ].

Definition exclude_suffixes : list string := [ "-cdn" ].

(** The columns [major], [minor], [patch] (as floats, NaN where the pattern
    captured nothing) and [misc] that [str.extract] adds. *)
Record Extracted := mkExtracted {
  x_raw : Raw;
  x_major : option Z;
  x_minor : option Z;
  x_patch : option Z;
  x_misc : option string
}.

(** A row after [dropna(subset=['major', 'minor', 'patch'])]. *)
Record Compliant := mkCompliant {
  c_row : Row;
  c_misc : option string
}.

Global Instance Row_eq_dec : EqDecision Row.
Proof. solve_decision. Defined.
Global Instance Compliant_eq_dec : EqDecision Compliant.
Proof. solve_decision. Defined.

Definition version_key (c : Compliant) : string * (Z * Z * Z) :=
  (r_package (c_row c), r_triple (c_row c)).

(** [sort_values(['package', 'date'])]. *)
Definition package_date_le (a b : Compliant) : Prop :=
  str_lt (r_package (c_row a)) (r_package (c_row b)) ∨
  (r_package (c_row a) = r_package (c_row b) ∧ r_date (c_row a) ≤ r_date (c_row b)).

Global Instance package_date_le_dec a b : Decision (package_date_le a b).
Proof. unfold package_date_le; apply _. Defined.

(** [sort_values(['package', 'rank'])]. *)
Definition package_rank_le (a b : Release) : Prop :=
  str_lt (package a) (package b) ∨ (package a = package b ∧ rank a ≤ rank b).

Global Instance package_rank_le_dec a b : Decision (package_rank_le a b).
Proof. unfold package_rank_le; apply _. Defined.

Section convert.
(** What the script takes from outside: the regular expressions.
    [Version.RE] belongs to [version.py], which is not among the sources;
    [ghost] is the matcher of [r'^ghost-\d+$'] of the [re] library.
    [version_re v] is the four groups captured in [v], the numeric ones
    already as floats. *)
Variable version_re : string → option Z * option Z * option Z * option string.
Variable ghost : string → bool.

(** The three filters on the NPM packages. *)
Definition remove_spam (df_releases : list Raw) : list Raw :=
  let d := filter (λ r, startswith exclude_prefixes (raw_package r) = false) df_releases in
  let d := filter (λ r, endswith exclude_suffixes (raw_package r) = false) d in
  filter (λ r, ghost (raw_package r) = false) d.

Definition extract (r : Raw) : Extracted :=
  let '(maj, mnr, pat, misc) := version_re (raw_version r) in
  mkExtracted r maj mnr pat misc.

(** [dropna(subset=['major', 'minor', 'patch'])] *)
Definition compliant (x : Extracted) : option Compliant :=
  maj ← x_major x; mnr ← x_minor x; pat ← x_patch x;
  Some (mkCompliant
          (mkRow (raw_package (x_raw x)) (raw_version (x_raw x)) maj mnr pat
                 (raw_date (x_raw x)))
          (x_misc x)).

(** "Remove prereleases and duplicates". *)
Definition remove_prereleases_and_duplicates (df : list Compliant) : list Row :=
  c_row <$>
    drop_duplicates_last version_key
      (merge_sort package_date_le (filter (λ c, c_misc c = None) df)).

Definition clean_releases (ecosystem : string) (df_releases : list Raw) : list Row :=
  let d := if decide (ecosystem = "NPM") then remove_spam df_releases else df_releases in
  remove_prereleases_and_duplicates (omap compliant (extract <$> d)).

(** "Ordering releases by version and date": the list [data]. *)
Definition rank_groups (df : list Row) : list (list Release) :=
  (λ g : string * list Row, rank_group g.2) <$> groupby r_package df.

(** "Merging results"; nothing is returned when [pandas.concat] raises. *)
Definition order_releases (df : list Row) : option (list Release) :=
  merge_sort package_rank_le <$> pandas_concat (rank_groups df).

Definition convert_releases (ecosystem : string) (df_releases : list Raw)
    : option (list Release) :=
  order_releases (clean_releases ecosystem df_releases).

(** "Filtering dependencies based on known packages and releases". *)
Definition same_release (d : RawDependency) (r : Release) : Prop :=
  raw_source d = package r ∧ raw_source_version d = version r.

Global Instance same_release_dec d r : Decision (same_release d r).
Proof. unfold same_release; apply _. Defined.

Definition with_source_rank (d : RawDependency) (r : Release) : Prepare.Dependent :=
  Prepare.mkDependent (raw_source d) (raw_source_version d) (rank r)
    (raw_target d) (raw_constraint d).

Definition convert_dependencies (df_releases : list Release)
    (df_dependencies : list RawDependency) : list Prepare.Dependent :=
  let known := filter (λ d, raw_target d ∈ package <$> df_releases) df_dependencies in
  merge_inner same_release with_source_rank known df_releases.

(** The two frames persisted for one ecosystem. *)
Definition convert (ecosystem : string) (df_releases : list Raw)
    (df_dependencies : list RawDependency)
    : option (list Release * list Prepare.Dependent) :=
  releases ← convert_releases ecosystem df_releases;
  Some (releases, convert_dependencies releases df_dependencies).
End convert.

End ConvertAll.

(** * The whole of [prepare.py]

    The body of the loop over the ecosystems, from the two frames read from
    disk to the two frames written back. *)

Module PrepareAll.
Import Prepare.

(** Minimum number of dependents. *)
Definition MIN_REQUIRED : nat := 5.

(** [pandas.to_datetime('2019-01-01')] in nanoseconds since the epoch. *)
Definition MIN_ACTIVE : Z := 1546300800000000000.

(** [sort_values('rank_date')]. *)
Definition rank_date_le (a b : Release) : Prop := rank_date a ≤ rank_date b.

Global Instance rank_date_le_dec a b : Decision (rank_date_le a b).
Proof. unfold rank_date_le; apply _. Defined.

(** [sort_values(['package', 'rank_date'])]. *)
Definition package_rank_date_le (a b : Release) : Prop :=
  str_lt (package a) (package b) ∨ (package a = package b ∧ rank_date a ≤ rank_date b).

Global Instance package_rank_date_le_dec a b : Decision (package_rank_date_le a b).
Proof. unfold package_rank_date_le; apply _. Defined.

(** [sort_values(['package', 'rank'])] on the classified rows. *)
Definition package_rank_leC (a b : Classified) : Prop :=
  ConvertAll.package_rank_le (c_rel a) (c_rel b).

Global Instance package_rank_leC_dec a b : Decision (package_rank_leC a b).
Proof. unfold package_rank_leC; apply _. Defined.

(** "Removing inactive packages": the packages whose last release by date
    rank is recent enough. *)
Definition active_packages (df_releases : list Release) : list string :=
  package <$>
    filter (λ r, MIN_ACTIVE ≤ date r)
      (drop_duplicates_last package (merge_sort rank_date_le df_releases)).

Definition active_releases (df_releases : list Release) : list Release :=
  filter (λ r, package r ∈ active_packages df_releases) df_releases.

(** "Removing unused packages": the dependencies between active packages
    that the last release of their source declares.  The join adds the
    columns [package] and [rank_date], which nothing reads afterwards. *)
Definition last_releases (df_releases : list Release) : list Release :=
  drop_duplicates_last package (merge_sort package_rank_date_le df_releases).

Definition of_last_release (d : Dependent) (r : Release) : Prop :=
  source d = package r ∧ dep_rank d = rank r.

Global Instance of_last_release_dec d r : Decision (of_last_release d r).
Proof. unfold of_last_release; apply _. Defined.

Definition latest_dependents (packages : list string) (df_releases : list Release)
    (df_dependencies : list Dependent) : list Dependent :=
  let selected :=
    filter (λ d, source d ∈ packages ∧ target d ∈ packages) df_dependencies in
  drop_duplicates_on (λ d, (source d, target d))
    (merge_inner of_last_release (λ d _, d) selected (last_releases df_releases)).

(** [groupby('target').agg({'source': 'count'})] and the threshold. *)
Definition required_packages (df_dependents : list Dependent) : list string :=
  fst <$>
    filter (λ c : string * nat, (MIN_REQUIRED ≤ c.2)%nat)
      ((λ g : string * list Dependent, (g.1, length g.2)) <$>
       groupby target df_dependents).

(** "Identifying backported updates": the list [data], then
    [df_required]; nothing is returned when [pandas.concat] raises. *)
Definition classified_groups (df_releases : list Release) (required : list string)
    : list (list Classified) :=
  (λ g : string * list Release, classify_group g.2) <$>
  groupby package (filter (λ r, package r ∈ required) df_releases).

Definition classify_required (df_releases : list Release) (required : list string)
    : option (list Classified) :=
  merge_sort package_rank_leC <$> pandas_concat (classified_groups df_releases required).

Section prepare.
Context {Interval : Type} `{Lib Interval}.

(** [sort_values(['source', 'target'])] on the resolved rows. *)
Definition source_target_le (a b : Resolved Interval) : Prop :=
  str_lt (source (edge a)) (source (edge b)) ∨
  (source (edge a) = source (edge b) ∧
   (str_lt (target (edge a)) (target (edge b)) ∨ target (edge a) = target (edge b))).

Global Instance source_target_le_dec a b : Decision (source_target_le a b).
Proof. unfold source_target_le; apply _. Defined.

(** The two frames saved for one ecosystem.  Nothing is saved when
    [pandas.concat] raises on [df_required]; the second frame is missing
    when the selection raises. *)
Definition prepare (parser : Parser Interval) (df_releases : list Release)
    (df_dependencies : list Dependent)
    : option (list Classified * Outcome (list (Resolved Interval))) :=
  let packages := active_packages df_releases in
  let df_releases := active_releases df_releases in
  let df_dependents := latest_dependents packages df_releases df_dependencies in
  let required := required_packages df_dependents in
  let df_dependents := filter (λ d, target d ∈ required) df_dependents in
  df_required ← classify_required df_releases required;
  Some (df_required,
        merge_sort source_target_le <$>
          resolve_dependents parser df_required df_dependents).
End prepare.

End PrepareAll.

(** * Concrete raw frames *)

Module RawFixtures.
Import ConvertAll.

(** A pattern that knows three numeric components and one prerelease. *)
Definition three_numbers (v : string) : option Z * option Z * option Z * option string :=
  match SpecInterval.decimal <$> SpecInterval.fields v with
  | [Some a; Some b; Some c] => (Some a, Some b, Some c, None)
  | _ =>
      if decide (v = "1.0.0-beta") then (Some 1, Some 0, Some 0, Some "-beta")
      else (None, None, None, None)
  end.

Definition no_ghost (s : string) : bool := false.

Definition raw_releases : list Raw :=
  [ mkRaw "pkg" "2.0.0" 30;
    mkRaw "pkg" "1.0.0" 10;
    mkRaw "pkg" "1.0.0-beta" 5;
    mkRaw "pkg" "1.1.0" 40;
    mkRaw "lib" "0.1.0" 20;
    mkRaw "pkg" "01.0.0" 12;
    mkRaw "cool-pkg" "1.0.0" 1;
    mkRaw "lib" "latest" 25 ].

Definition raw_dependencies : list RawDependency :=
  [ mkRawDependency "lib" "0.1.0" "pkg" "^1.0";
    mkRawDependency "lib" "latest" "pkg" "^2.0";
    mkRawDependency "pkg" "2.0.0" "left-pad" "*";
    mkRawDependency "pkg" "1.1.0" "lib" "~0.1" ].

End RawFixtures.
(** * Properties of the frame primitives *)

Section frame_lemmas.
Context {A : Type}.
Implicit Types (l : list A) (i : nat).

Lemma cumsum_from_ones acc (n : nat) :
  cumsum_from acc (replicate n 1) = (λ k : nat, acc + Z.of_nat k) <$> seq 1 n.
Proof.
  revert acc. induction n as [|n IH]; intros acc; [done|].
  cbn [replicate cumsum_from seq fmap list_fmap]. f_equal.
  rewrite IH, <- (fmap_S_seq 1), <- list_fmap_compose.
  apply list_fmap_ext. intros _ k _. simpl. lia.
Qed.

Lemma row_numbers_seq l : row_numbers l = Z.of_nat <$> seq 1 (length l).
Proof.
  unfold row_numbers, cumsum.
  replace ((λ _ : A, 1) <$> l) with (replicate (length l) 1).
  - rewrite cumsum_from_ones. apply list_fmap_ext. intros _ k _. lia.
  - induction l as [|x l IH]; [done|]. simpl. by rewrite IH.
Qed.

Lemma length_row_numbers l : length (row_numbers l) = length l.
Proof. by rewrite row_numbers_seq, length_fmap, length_seq. Qed.

Lemma lookup_row_numbers l i k :
  row_numbers l !! i = Some k ↔ (i < length l)%nat ∧ k = Z.of_nat (S i).
Proof.
  rewrite row_numbers_seq, list_lookup_fmap, fmap_Some. split.
  - intros (n & Hn & ->). apply lookup_seq in Hn as [-> ?]. done.
  - intros [? ->]. exists (S i). split; [|done]. by apply lookup_seq.
Qed.

Lemma length_shift_from prev l : length (shift_from prev l) = length l.
Proof. revert prev. induction l; intros; simpl; auto. Qed.

Lemma lookup_shift_from_0 prev l :
  l ≠ [] → shift_from prev l !! 0%nat = Some prev.
Proof. by destruct l. Qed.

Lemma lookup_shift_from_S prev l i :
  (S i < length l)%nat → shift_from prev l !! S i = Some (l !! i).
Proof.
  revert prev i. induction l as [|x l IH]; intros prev i Hi; simpl in *; [lia|].
  destruct l as [|y l]; simpl in *; [lia|].
  destruct i as [|i]; [done|]. apply (IH (Some x) i). simpl. lia.
Qed.

Lemma length_shift1 l : length (shift1 l) = length l.
Proof. apply length_shift_from. Qed.

Lemma StronglySorted_lookup (R : relation A) l i j x y :
  StronglySorted R l → l !! i = Some x → l !! j = Some y → (i < j)%nat → R x y.
Proof.
  intros Hs. revert i j. induction Hs as [|z l Hs IH Hall]; intros i j Hi Hj Hij.
  - done.
  - destruct j as [|j]; [lia|]. destruct i as [|i]; simpl in *.
    + simplify_eq. rewrite Forall_forall in Hall.
      apply Hall. by eapply list_elem_of_lookup_2.
    + apply (IH i j); auto with lia.
Qed.
End frame_lemmas.

(** The running maximum at row [i] bounds every value up to row [i] and is
    one of them. *)
Lemma expanding_from_spec acc (l : list Z) (i : nat) m :
  expanding_from acc l !! i = Some m →
  acc ≤ m ∧
  (∀ (j : nat) x, (j ≤ i)%nat → l !! j = Some x → x ≤ m) ∧
  (m = acc ∨ ∃ (j : nat), (j ≤ i)%nat ∧ l !! j = Some m).
Proof.
  revert acc i. induction l as [|x l IH]; intros acc i Hm; [done|].
  destruct i as [|i]; simpl in Hm.
  - simplify_eq. split; [lia|]. split.
    + intros [|j] y Hj Hy; [|lia]. simpl in Hy. simplify_eq. lia.
    + destruct (Z.max_spec acc x) as [[? ->]|[? ->]]; [right|by left].
      exists 0%nat. done.
  - apply IH in Hm as (Hacc & Hub & Hin). split; [lia|]. split.
    + intros [|j] y Hj Hy; simpl in Hy.
      * simplify_eq. lia.
      * apply (Hub j); [lia|done].
    + destruct Hin as [->|(j & Hj & Hjm)].
      * destruct (Z.max_spec acc x) as [[? ->]|[? ->]]; [right|by left].
        exists 0%nat. split; [lia|done].
      * right. exists (S j). split; [lia|done].
Qed.

Lemma expanding_max_spec (l : list Z) (i : nat) m :
  expanding_max l !! i = Some m →
  (∀ (j : nat) x, (j ≤ i)%nat → l !! j = Some x → x ≤ m) ∧
  (∃ (j : nat), (j ≤ i)%nat ∧ l !! j = Some m).
Proof.
  destruct l as [|x l]; [done|]. destruct i as [|i]; simpl.
  - intros ?; simplify_eq. split.
    + intros [|j] y Hj Hy; [|lia]. simpl in Hy. by simplify_eq.
    + by exists 0%nat.
  - intros Hm. apply expanding_from_spec in Hm as (Hx & Hub & Hin). split.
    + intros [|j] y Hj Hy; simpl in Hy.
      * simplify_eq. lia.
      * apply (Hub j); [lia|done].
    + destruct Hin as [->|(j & Hj & Hjm)].
      * exists 0%nat. split; [lia|done].
      * exists (S j). split; [lia|done].
Qed.

Lemma length_expanding_from acc l : length (expanding_from acc l) = length l.
Proof. revert acc. induction l; intros; simpl; auto. Qed.

Lemma length_expanding_max l : length (expanding_max l) = length l.
Proof. destruct l; simpl; [done|]. by rewrite length_expanding_from. Qed.

(** * The sort orders are total preorders *)

Global Instance triple_le_trans : Transitive triple_le.
Proof. intros [[??]?] [[??]?] [[??]?]; unfold triple_le; lia. Qed.
Global Instance triple_le_total : Total triple_le.
Proof. intros [[??]?] [[??]?]; unfold triple_le; lia. Qed.
Global Instance pair_le_trans : Transitive pair_le.
Proof. intros [??] [??] [??]; unfold pair_le; simpl; lia. Qed.
Global Instance pair_le_total : Total pair_le.
Proof. intros [??] [??]; unfold pair_le; simpl; lia. Qed.

Lemma triple_le_antisym a b : triple_le a b → triple_le b a → a = b.
Proof.
  destruct a as [[a1 a2] a3], b as [[b1 b2] b3]. unfold triple_le.
  intros ??. assert (a1 = b1 ∧ a2 = b2 ∧ a3 = b3) as (-> & -> & ->) by lia. done.
Qed.

Lemma triple_lt_le a b : triple_lt a b ↔ triple_le a b ∧ a ≠ b.
Proof.
  destruct a as [[a1 a2] a3], b as [[b1 b2] b3]. unfold triple_lt, triple_le.
  split.
  - intros H. split; [lia|]. intros ?; simplify_eq. lia.
  - intros [H Hne].
    destruct (decide (a1 = b1)) as [->|]; [|lia].
    destruct (decide (a2 = b2)) as [->|]; [|lia].
    destruct (decide (a3 = b3)) as [->|]; [done|lia].
Qed.

Global Instance chron_le_trans : Transitive chron_le.
Proof. intros a b c. unfold chron_le. apply pair_le_trans. Qed.
Global Instance chron_le_total : Total chron_le.
Proof. intros a b. unfold chron_le. apply pair_le_total. Qed.

Global Instance version_le_trans : Transitive Convert.version_le.
Proof. intros a b c. unfold Convert.version_le. apply triple_le_trans. Qed.
Global Instance version_le_total : Total Convert.version_le.
Proof. intros a b. unfold Convert.version_le. apply triple_le_total. Qed.

Global Instance rank_le_trans : Transitive Prepare.rank_le.
Proof. intros a b c. unfold Prepare.rank_le. lia. Qed.
Global Instance rank_le_total : Total Prepare.rank_le.
Proof. intros a b. unfold Prepare.rank_le. lia. Qed.

Global Instance chron_leK_trans : Transitive Prepare.chron_leK.
Proof. intros a b c. unfold Prepare.chron_leK. apply chron_le_trans. Qed.
Global Instance chron_leK_total : Total Prepare.chron_leK.
Proof. intros a b. unfold Prepare.chron_leK. apply chron_le_total. Qed.

Global Instance crank_le_trans : Transitive Prepare.crank_le.
Proof. intros a b c. unfold Prepare.crank_le. apply rank_le_trans. Qed.
Global Instance crank_le_total : Total Prepare.crank_le.
Proof. intros a b. unfold Prepare.crank_le. apply rank_le_total. Qed.

(** * Rank assignment ([convert.py]) *)

Module ConvertFacts.
Import Convert.

(** Row [i] of a frame that has just received its running count. *)
Lemma lookup_numbered {A B} (f : A → Z → B) (d : list A) (i : nat) y :
  zip_with f d (row_numbers d) !! i = Some y ↔
  ∃ x, d !! i = Some x ∧ y = f x (Z.of_nat (S i)).
Proof.
  rewrite lookup_zip_with_Some. split.
  - intros (x & k & -> & Hx & Hk). apply lookup_row_numbers in Hk as [_ ->]. eauto.
  - intros (x & Hx & ->). exists x, (Z.of_nat (S i)). split_and!; [done..|].
    apply lookup_row_numbers. split; [|done]. by eapply lookup_lt_Some.
Qed.

Lemma length_numbered {A B} (f : A → Z → B) (d : list A) :
  length (zip_with f d (row_numbers d)) = length d.
Proof. rewrite length_zip_with_l_eq; [done|]. by rewrite length_row_numbers. Qed.

Lemma fmap_numbered_row {A B C} (f : A → Z → B) (g : B → C) (h : A → C) (d : list A) :
  (∀ x k, g (f x k) = h x) → g <$> zip_with f d (row_numbers d) = h <$> d.
Proof.
  intros Hg. apply list_eq. intros i. rewrite !list_lookup_fmap.
  destruct (zip_with f d (row_numbers d) !! i) as [y|] eqn:Hy.
  - apply lookup_numbered in Hy as (x & -> & ->). simpl. by rewrite Hg.
  - destruct (d !! i) as [x|] eqn:Hx; [|done].
    assert (zip_with f d (row_numbers d) !! i = Some (f x (Z.of_nat (S i)))) as Hz
      by (apply lookup_numbered; eauto).
    congruence.
Qed.

Lemma fmap_numbered_count {A B} (f : A → Z → B) (g : B → Z) (d : list A) :
  (∀ x k, g (f x k) = k) → g <$> zip_with f d (row_numbers d) = row_numbers d.
Proof.
  intros Hg. apply list_eq. intros i. rewrite !list_lookup_fmap.
  destruct (zip_with f d (row_numbers d) !! i) as [y|] eqn:Hy.
  - apply lookup_numbered in Hy as (x & Hx & ->). simpl. rewrite Hg. symmetry.
    apply lookup_row_numbers. split; [|done]. by eapply lookup_lt_Some.
  - apply lookup_ge_None in Hy. rewrite length_numbered in Hy. symmetry.
    apply lookup_ge_None. by rewrite length_row_numbers.
Qed.

Section rank_group.
Variable group : list Row.

Local Abbreviation by_version := (merge_sort version_le group).
Local Abbreviation ranked := (zip_with with_rank by_version (row_numbers by_version)).
Local Abbreviation by_date := (merge_sort chron_le ranked).

Lemma rank_group_lookup (i : nat) a :
  rank_group group !! i = Some a ↔
  ∃ b, by_date !! i = Some b ∧ a = set_rank_date b (Z.of_nat (S i)).
Proof. apply lookup_numbered. Qed.

Lemma ranked_lookup (i : nat) b :
  ranked !! i = Some b ↔
  ∃ x, by_version !! i = Some x ∧ b = with_rank x (Z.of_nat (S i)).
Proof. apply lookup_numbered. Qed.

Lemma by_date_elem b :
  b ∈ by_date ↔ ∃ (i : nat) x, by_version !! i = Some x ∧ b = with_rank x (Z.of_nat (S i)).
Proof.
  rewrite merge_sort_Permutation, list_elem_of_lookup.
  split; intros (i & Hi); exists i; by apply ranked_lookup.
Qed.

Lemma length_rank_group : length (rank_group group) = length group.
Proof.
  unfold rank_group. rewrite length_numbered.
  rewrite (Permutation_length (merge_sort_Permutation _ _)), length_numbered.
  apply Permutation_length, merge_sort_Permutation.
Qed.

Lemma rank_group_unranked : unranked <$> rank_group group ≡ₚ group.
Proof.
  unfold rank_group.
  rewrite (fmap_numbered_row _ _ unranked) by done.
  rewrite merge_sort_Permutation.
  rewrite (fmap_numbered_row _ _ id) by (by intros []).
  rewrite list_fmap_id. apply merge_sort_Permutation.
Qed.

Lemma rank_group_rank_date :
  rank_date <$> rank_group group = Z.of_nat <$> seq 1 (length group).
Proof.
  unfold rank_group.
  rewrite fmap_numbered_count by done.
  rewrite row_numbers_seq. do 2 f_equal.
  rewrite (Permutation_length (merge_sort_Permutation _ _)).
  rewrite length_numbered.
  apply Permutation_length, merge_sort_Permutation.
Qed.

Lemma rank_group_rank :
  rank <$> rank_group group ≡ₚ Z.of_nat <$> seq 1 (length group).
Proof.
  unfold rank_group.
  rewrite (fmap_numbered_row _ _ rank) by done.
  rewrite merge_sort_Permutation.
  rewrite fmap_numbered_count by done.
  rewrite row_numbers_seq.
  by rewrite (Permutation_length (merge_sort_Permutation _ _)).
Qed.

Lemma rank_group_version_order a b :
  a ∈ rank_group group → b ∈ rank_group group →
  rank a < rank b → triple_le (triple a) (triple b).
Proof.
  intros (i & Ha)%list_elem_of_lookup (j & Hb)%list_elem_of_lookup Hlt.
  apply rank_group_lookup in Ha as (a' & Ha' & ->).
  apply rank_group_lookup in Hb as (b' & Hb' & ->).
  apply list_elem_of_lookup_2, by_date_elem in Ha' as (ia & x & Hx & ->).
  apply list_elem_of_lookup_2, by_date_elem in Hb' as (ib & y & Hy & ->).
  simpl in Hlt.
  assert (version_le x y) as Hxy.
  { eapply (StronglySorted_lookup version_le by_version ia ib); [|done..|lia].
    apply StronglySorted_merge_sort; apply _. }
  exact Hxy.
Qed.

Lemma rank_group_date_order a b :
  a ∈ rank_group group → b ∈ rank_group group →
  rank_date a < rank_date b → chron_le a b.
Proof.
  intros (i & Ha)%list_elem_of_lookup (j & Hb)%list_elem_of_lookup Hlt.
  apply rank_group_lookup in Ha as (a' & Ha' & ->).
  apply rank_group_lookup in Hb as (b' & Hb' & ->).
  simpl in Hlt.
  assert (chron_le a' b') as Hab.
  { eapply (StronglySorted_lookup chron_le by_date i j); [|done..|lia].
    apply StronglySorted_merge_sort; apply _. }
  exact Hab.
Qed.
End rank_group.

End ConvertFacts.

(** * Joins *)

Section merge_left_facts.
Context {A B C : Type} (on : A → B → Prop) `{∀ a b, Decision (on a b)}.
Context (joined : A → option B → C).

Lemma elem_of_merge_left c (left : list A) (right : list B) :
  c ∈ merge_left on joined left right ↔
  ∃ a, a ∈ left ∧
    ((filter (on a) right = [] ∧ c = joined a None) ∨
     (∃ b, b ∈ right ∧ on a b ∧ c = joined a (Some b))).
Proof.
  unfold merge_left. rewrite list_elem_of_bind. split.
  - intros (a & Hc & Ha). exists a. split; [done|].
    destruct (filter (on a) right) as [|b ms] eqn:Hf.
    + left. apply list_elem_of_singleton in Hc. done.
    + right. apply list_elem_of_fmap in Hc as (b' & -> & Hb').
      rewrite <- Hf in Hb'. apply list_elem_of_filter in Hb' as [??]. eauto.
  - intros (a & Ha & [[Hf ->]|(b & Hb & Hab & ->)]); exists a; (split; [|done]).
    + rewrite Hf. by apply list_elem_of_singleton.
    + assert (b ∈ filter (on a) right) as Hin by (by apply list_elem_of_filter).
      destruct (filter (on a) right) as [|b' ms]; [by apply not_elem_of_nil in Hin|].
      apply list_elem_of_fmap. eauto.
Qed.

(** When no left row matches two right rows, the join keeps the left frame
    row for row. *)
Lemma merge_left_unique (left : list A) (right : list B) :
  (∀ a, a ∈ left → (length (filter (on a) right) ≤ 1)%nat) →
  merge_left on joined left right =
  (λ a, joined a (head (filter (on a) right))) <$> left.
Proof.
  unfold merge_left. induction left as [|a left IH]; intros Hu; [done|].
  rewrite bind_cons, fmap_cons, IH.
  - pose proof (Hu a (list_elem_of_here _ _)) as Ha.
    destruct (filter (on a) right) as [|b [|b' ms]]; simpl in *; [done..|lia].
  - intros a' Ha'. apply Hu. by apply list_elem_of_further.
Qed.
End merge_left_facts.

(** A key column without duplicates matches at most one row. *)
Lemma NoDup_fmap_eq {A B} (f : A → B) (l : list A) x y :
  NoDup (f <$> l) → x ∈ l → y ∈ l → f x = f y → x = y.
Proof.
  intros Hnd (i & Hi)%list_elem_of_lookup (j & Hj)%list_elem_of_lookup Hxy.
  assert (i = j) as ->.
  { eapply (NoDup_lookup _ _ _ (f x) Hnd); rewrite list_lookup_fmap.
    - by rewrite Hi.
    - by rewrite Hj, Hxy. }
  congruence.
Qed.

Lemma filter_key_length {A B} (f : A → B) (Q : A → Prop) `{∀ x, Decision (Q x)}
    (l : list A) :
  NoDup (f <$> l) →
  (∀ x y, Q x → Q y → f x = f y) →
  (length (filter Q l) ≤ 1)%nat.
Proof.
  intros Hnd Hq.
  destruct (filter Q l) as [|x [|y ms]] eqn:Hf; simpl; [lia..|].
  exfalso.
  assert (NoDup (x :: y :: ms)) as Hnd'.
  { rewrite <- Hf. apply NoDup_filter. by eapply NoDup_fmap_1. }
  assert (x ∈ filter Q l) as Hx by (rewrite Hf, elem_of_cons; auto).
  assert (y ∈ filter Q l) as Hy by (rewrite Hf, !elem_of_cons; auto).
  apply list_elem_of_filter in Hx as [Hpx Hx]. apply list_elem_of_filter in Hy as [Hpy Hy].
  assert (x = y) as -> by (eapply (NoDup_fmap_eq f l); eauto).
  apply NoDup_cons in Hnd' as [Hnin _]. apply Hnin, elem_of_cons. by left.
Qed.

Lemma head_filter_None {A} (P : A → Prop) `{∀ x, Decision (P x)} (l : list A) :
  head (filter P l) = None ↔ ∀ x, x ∈ l → ¬ P x.
Proof.
  rewrite head_None. split.
  - intros Hf x Hx HP. by eapply filter_nil_not_elem_of.
  - intros Hn. induction l as [|x l IH]; [done|].
    rewrite filter_cons_False by (apply Hn, elem_of_cons; by left).
    apply IH. intros y Hy. apply Hn, elem_of_cons. by right.
Qed.

Lemma head_filter_elem {A} (P : A → Prop) `{∀ x, Decision (P x)} (l : list A) x :
  head (filter P l) = Some x → P x ∧ x ∈ l.
Proof.
  intros Hh. apply head_Some_elem_of in Hh. by apply list_elem_of_filter in Hh.
Qed.

Lemma list_filter_fmap {A B} (f : A → B) (P : B → Prop) `{∀ b, Decision (P b)}
    (l : list A) :
  filter P (f <$> l) = f <$> filter (λ x, P (f x)) l.
Proof.
  induction l as [|x l IH]; [done|]. rewrite fmap_cons, !filter_cons.
  destruct (decide (P (f x))); by rewrite IH.
Qed.

Lemma foldr_max_spec (x : Z) (l : list Z) :
  foldr Z.max x l ∈ x :: l ∧ ∀ z, z ∈ x :: l → z ≤ foldr Z.max x l.
Proof.
  induction l as [|y l [IHin IHub]]; simpl.
  - split; [apply elem_of_cons; by left|].
    intros z [->|[]%elem_of_nil]%elem_of_cons. lia.
  - split.
    + apply elem_of_cons in IHin.
      destruct (Z.max_spec y (foldr Z.max x l)) as [[? ->]|[? ->]].
      * destruct IHin as [->|?]; rewrite !elem_of_cons; auto.
      * rewrite !elem_of_cons; auto.
    + intros z [->|[->|Hz]%elem_of_cons]%elem_of_cons.
      * assert (x ≤ foldr Z.max x l) by (apply IHub, elem_of_cons; by left). lia.
      * lia.
      * assert (z ≤ foldr Z.max x l) by (apply IHub, elem_of_cons; by right). lia.
Qed.

Lemma max_of_spec (l : list Z) m :
  max_of l = Some m ↔ m ∈ l ∧ ∀ x, x ∈ l → x ≤ m.
Proof.
  destruct l as [|x l]; simpl.
  - split; [done|]. intros [[]%not_elem_of_nil _].
  - destruct (foldr_max_spec x l) as [Hin Hub]. split.
    + intros ?; simplify_eq. done.
    + intros [Hm Hle]. f_equal.
      apply Hub in Hm. apply Hle in Hin. lia.
Qed.

(** * History classification ([prepare.py]) *)

Module PrepareFacts.
Import Prepare.

(** ** Update kind *)

Lemma positive_flag d : astype_bool (clip01 (Some d)) = bool_decide (0 < d).
Proof.
  simpl. destruct (decide (0 < d)).
  - rewrite (bool_decide_eq_true_2 (0 < d)) by done.
    apply bool_decide_eq_true_2. lia.
  - rewrite (bool_decide_eq_false_2 (0 < d)) by done.
    apply bool_decide_eq_false_2. lia.
Qed.

Lemma kind_of_first r : kind_of r None = Initial.
Proof. reflexivity. Qed.

Lemma kind_of_next r p :
  kind_of r (Some p) =
  if decide (0 < major r - major p) then Major
  else if decide (0 < minor r - minor p) then Minor
  else if decide (0 < patch r - patch p) then Patch
  else Initial.
Proof.
  unfold kind_of, fsub. cbn [fmap option_fmap option_map isnull].
  rewrite !positive_flag. unfold idxmax.
  destruct (decide (0 < major r - major p)) as [Hm|Hm];
    [rewrite (bool_decide_eq_true_2 _ Hm)|rewrite (bool_decide_eq_false_2 _ Hm)];
  (destruct (decide (0 < minor r - minor p)) as [Hn|Hn];
    [rewrite (bool_decide_eq_true_2 _ Hn)|rewrite (bool_decide_eq_false_2 _ Hn)]);
  (destruct (decide (0 < patch r - patch p)) as [Hp|Hp];
    [rewrite (bool_decide_eq_true_2 _ Hp)|rewrite (bool_decide_eq_false_2 _ Hp)]);
  reflexivity.
Qed.

Lemma assign_kind_rel g : rel <$> assign_kind g = merge_sort rank_le g.
Proof.
  unfold assign_kind. apply fmap_zip_with_l; [done|].
  by rewrite length_shift1.
Qed.

Lemma assign_kind_lookup g (i : nat) k :
  assign_kind g !! i = Some k ↔
  ∃ r, merge_sort rank_le g !! i = Some r ∧
       k = mkKinded r (kind_of r (match i with
                                  | O => None
                                  | S j => merge_sort rank_le g !! j
                                  end)).
Proof.
  unfold assign_kind. rewrite lookup_zip_with_Some. split.
  - intros (r & p & -> & Hr & Hp). exists r. split; [done|].
    pose proof (lookup_lt_Some _ _ _ Hr) as Hlt.
    destruct i as [|j].
    + unfold shift1 in Hp. rewrite lookup_shift_from_0 in Hp; [by simplify_eq|].
      intros Hnil. by rewrite Hnil in Hr.
    + unfold shift1 in Hp. rewrite lookup_shift_from_S in Hp by done. by simplify_eq.
  - intros (r & Hr & ->). eexists r, _. split; [done|]. split; [done|].
    pose proof (lookup_lt_Some _ _ _ Hr) as Hlt.
    destruct i as [|j]; unfold shift1.
    + apply lookup_shift_from_0. intros Hnil. by rewrite Hnil in Hr.
    + by apply lookup_shift_from_S.
Qed.

Lemma assign_kind_Permutation g : rel <$> assign_kind g ≡ₚ g.
Proof. rewrite assign_kind_rel. apply merge_sort_Permutation. Qed.

Lemma assign_kind_sorted g : StronglySorted rank_le (rel <$> assign_kind g).
Proof. rewrite assign_kind_rel. apply StronglySorted_merge_sort; apply _. Qed.

(** ** Backport detection *)

Lemma flag_backported_lookup d (i : nat) f :
  flag_backported d !! i = Some f ↔
  ∃ k hm hr,
    d !! i = Some k ∧
    expanding_max ((λ k, major (rel k)) <$> d) !! i = Some hm ∧
    expanding_max ((λ k, rank (rel k)) <$> d) !! i = Some hr ∧
    f = where_backported k (hm, hr).
Proof.
  unfold flag_backported. rewrite lookup_zip_with_Some. split.
  - intros (k & [hm hr] & -> & Hk & Hh). apply lookup_zip_Some in Hh as [??].
    by exists k, hm, hr.
  - intros (k & hm & hr & Hk & Hm & Hr & ->). exists k, (hm, hr).
    split_and!; [done..|]. by apply lookup_zip_Some.
Qed.

Lemma flag_backported_rows d : f_row <$> flag_backported d = d.
Proof.
  unfold flag_backported. apply fmap_zip_with_l; [done|].
  rewrite length_zip, !length_expanding_max, !length_fmap. lia.
Qed.

(** The running maximum exceeds a row's own value exactly when an earlier
    row does. *)
Lemma below_running_max (l : list Z) (i : nat) x m :
  l !! i = Some x → expanding_max l !! i = Some m →
  x < m ↔ ∃ (j : nat) y, (j < i)%nat ∧ l !! j = Some y ∧ x < y.
Proof.
  intros Hx Hm. apply expanding_max_spec in Hm as [Hub (j & Hj & Hjm)]. split.
  - intros Hlt. exists j, m. split_and!; [|done..].
    destruct (decide (j = i)) as [->|]; [|lia]. simplify_eq. lia.
  - intros (j' & y & Hj' & Hy & Hlt).
    assert (y ≤ m) by (apply (Hub j'); [lia|done]). lia.
Qed.

(** ** Backport attribution *)

Lemma release_of_rank_Some rels k p :
  release_of_rank rels k = Some p → p ∈ rels ∧ rank p = k.
Proof. intros [??]%head_filter_elem. done. Qed.

Lemma release_of_rank_None rels k :
  release_of_rank rels k = None ↔ ∀ p, p ∈ rels → rank p ≠ k.
Proof. apply head_filter_None. Qed.

Lemma release_of_rank_unique rels p :
  NoDup (rank <$> rels) → p ∈ rels → release_of_rank rels (rank p) = Some p.
Proof.
  intros Hnd Hp.
  destruct (release_of_rank rels (rank p)) as [q|] eqn:Hq.
  - apply release_of_rank_Some in Hq as [Hq Hr].
    f_equal. by eapply (NoDup_fmap_eq rank rels).
  - rewrite release_of_rank_None in Hq. by destruct (Hq p Hp).
Qed.

Lemma release_of_rank_perm rels rels' k :
  NoDup (rank <$> rels) → rels ≡ₚ rels' →
  release_of_rank rels' k = release_of_rank rels k.
Proof.
  intros Hnd Hp.
  assert (NoDup (rank <$> rels')) as Hnd' by (by rewrite <- Hp).
  destruct (release_of_rank rels k) as [p|] eqn:Hk.
  - apply release_of_rank_Some in Hk as [Hin <-].
    apply release_of_rank_unique; [done|]. by rewrite <- Hp.
  - apply release_of_rank_None. intros p Hin. rewrite release_of_rank_None in Hk.
    apply Hk. by rewrite Hp.
Qed.

(** Under unique ranks both joins keep one row per release, and the frame
    after the joins is the row-wise scan. *)
Lemma attribute_rows (df : list Flagged) :
  let rels := (λ f, rel (f_row f)) <$> df in
  NoDup (rank <$> rels) →
  attribute df = attribute_row rels <$> df.
Proof.
  intros rels Hnd. unfold attribute.
  set (right1 := (λ f, date_rank_key (rel (f_row f))) <$> df).
  set (right2 := (λ b : Z * Z, (b.1, b.2 - 1)) <$> right1).
  assert (∀ key : option Z,
    filter (on_backported key) right1 =
    date_rank_key <$> filter (λ r, key = Some (rank r)) rels) as Hprev.
  { intros key. unfold right1, rels.
    rewrite !list_filter_fmap, <- list_fmap_compose. done. }
  assert (∀ key : option Z,
    filter (on_backported key) right2 =
    (λ r, (date r, rank r - 1)) <$> filter (λ r, key = Some (rank r - 1)) rels) as Hnext.
  { intros key. unfold right2, right1, rels.
    rewrite !list_filter_fmap, <- !list_fmap_compose. done. }
  clearbody right1 right2.
  rewrite (merge_left_unique _ _ df).
  2:{ intros f _. rewrite Hprev, length_fmap.
      apply (filter_key_length rank); [done|].
      intros ????. congruence. }
  rewrite merge_left_unique.
  2:{ intros j _. rewrite Hnext, length_fmap.
      apply (filter_key_length rank); [done|].
      intros x y ??. assert (rank x - 1 = rank y - 1) by congruence. lia. }
  rewrite <- !list_fmap_compose. apply list_fmap_ext. intros _ f _. simpl.
  rewrite Hprev, Hnext. unfold attribute_row. 
  assert (head (filter (λ r, f_backported f = Some (rank r)) rels) =
          f_backported f ≫= release_of_rank rels) as Hp.
  { destruct (f_backported f) as [k|]; simpl.
    - unfold release_of_rank. f_equal. apply list_filter_iff. intros r. split; congruence.
    - apply head_filter_None. intros ???. done. }
  assert (head (filter (λ r, f_backported f = Some (rank r - 1)) rels) =
          f_backported f ≫= (λ k, release_of_rank rels (k + 1))) as Hn.
  { destruct (f_backported f) as [k|]; simpl.
    - unfold release_of_rank. f_equal. apply list_filter_iff. intros r. split.
      + intros ?. simplify_eq. lia.
      + intros Hr. f_equal. lia.
    - apply head_filter_None. intros ???. done. }
  rewrite <- Hp, <- Hn.
  destruct (filter (λ r, f_backported f = Some (rank r)) rels) as [|p ps];
    destruct (filter (λ r, f_backported f = Some (rank r - 1)) rels) as [|n ns];
    reflexivity.
Qed.

Lemma expanding_max_max_of (l : list Z) (i : nat) m :
  expanding_max l !! i = Some m → max_of (take (S i) l) = Some m.
Proof.
  intros [Hub (j & Hj & Hjm)]%expanding_max_spec. apply max_of_spec. split.
  - apply elem_of_take. exists j. split; [done|lia].
  - intros x (j' & Hx & Hj')%elem_of_take. apply (Hub j'); [lia|done].
Qed.

Lemma below_earlier_max (l : list Z) (i : nat) x hm :
  l !! i = Some x → expanding_max l !! i = Some hm →
  x < hm ↔ ∃ m, max_of (take i l) = Some m ∧ x < m.
Proof.
  intros Hx Hm. rewrite (below_running_max l i x hm Hx Hm). split.
  - intros (j & y & Hj & Hy & Hlt).
    assert (y ∈ take i l) as Hin by (apply elem_of_take; eauto).
    destruct (max_of (take i l)) as [m|] eqn:Hmax.
    + exists m. split; [done|]. apply max_of_spec in Hmax as [_ Hub].
      apply Hub in Hin. lia.
    + destruct (take i l); [by apply elem_of_nil in Hin|done].
  - intros (m & [Hin _]%max_of_spec & Hlt).
    apply elem_of_take in Hin as (j & Hj & Hji). eauto.
Qed.

Section classify.
Variable g : list Release.
Hypothesis ranks_unique : NoDup (rank <$> g).

Local Abbreviation chronK := (merge_sort chron_leK (assign_kind g)).

Lemma chronK_Permutation : rel <$> chronK ≡ₚ g.
Proof. rewrite merge_sort_Permutation. apply assign_kind_Permutation. Qed.

Lemma chronK_sorted : StronglySorted chron_le (rel <$> chronK).
Proof.
  apply (StronglySorted_fmap rel chron_leK chron_le); [done|].
  apply StronglySorted_merge_sort; apply _.
Qed.

Lemma classify_group_rows :
  classify_group g = attribute_row (rel <$> chronK) <$> flag_backported chronK.
Proof.
  unfold classify_group.
  assert ((λ f, rel (f_row f)) <$> flag_backported chronK = rel <$> chronK) as Hrels.
  { rewrite (list_fmap_compose f_row rel). by rewrite flag_backported_rows. }
  rewrite attribute_rows; rewrite Hrels; [done|].
  by rewrite chronK_Permutation.
Qed.

Lemma classify_group_lookup (i : nat) c :
  classify_group g !! i = Some c ↔
  ∃ k hm hr,
    chronK !! i = Some k ∧
    expanding_max (major <$> (rel <$> chronK)) !! i = Some hm ∧
    expanding_max (rank <$> (rel <$> chronK)) !! i = Some hr ∧
    c = attribute_row (rel <$> chronK) (where_backported k (hm, hr)).
Proof.
  rewrite classify_group_rows, list_lookup_fmap, fmap_Some.
  assert (major <$> (rel <$> chronK) = (λ k, major (rel k)) <$> chronK) as ->
    by (by rewrite <- list_fmap_compose).
  assert (rank <$> (rel <$> chronK) = (λ k, rank (rel k)) <$> chronK) as ->
    by (by rewrite <- list_fmap_compose).
  split.
  - intros (f & (k & hm & hr & ? & ? & ? & ->)%flag_backported_lookup & ->).
    by exists k, hm, hr.
  - intros (k & hm & hr & ? & ? & ? & ->). eexists. split; [|done].
    apply flag_backported_lookup. by exists k, hm, hr.
Qed.

Lemma classify_group_rel : c_rel <$> classify_group g = rel <$> chronK.
Proof.
  rewrite classify_group_rows, <- list_fmap_compose.
  transitivity (rel <$> (f_row <$> flag_backported chronK)).
  - rewrite <- list_fmap_compose. by apply list_fmap_ext.
  - by rewrite flag_backported_rows.
Qed.

Lemma classify_group_Permutation : c_rel <$> classify_group g ≡ₚ g.
Proof. rewrite classify_group_rel. apply chronK_Permutation. Qed.

Lemma classify_group_sorted : StronglySorted chron_le (c_rel <$> classify_group g).
Proof. rewrite classify_group_rel. apply chronK_sorted. Qed.

Lemma classify_group_backported (i : nat) c :
  classify_group g !! i = Some c →
  backported c = true ↔
  ∃ m, max_of (major <$> take i (c_rel <$> classify_group g)) = Some m ∧
       major (c_rel c) < m.
Proof.
  intros (k & hm & hr & Hk & Hm & Hr & ->)%classify_group_lookup.
  rewrite fmap_take, classify_group_rel.
  rewrite <- (below_earlier_max _ i (major (rel k)) hm); [|by rewrite !list_lookup_fmap, Hk|done].
  unfold attribute_row, closest, where_backported. simpl.
  destruct (decide (major (rel k) < hm)); simpl; split; done.
Qed.

(** The row-wise outcome of the attribution for a flagged release: [R] is
    the running maximum of the ranks, [p] the release of rank [R], which
    was published no later than the flagged one. *)
Lemma classify_group_from (i : nat) c :
  classify_group g !! i = Some c → backported c = true →
  ∃ R p,
    max_of (rank <$> take (S i) (c_rel <$> classify_group g)) = Some R ∧
    p ∈ g ∧ rank p = R ∧ date p ≤ date (c_rel c) ∧
    backported_from c =
      if decide (Z.abs (date (c_rel c) - date p) ≤
                 Z.abs (date (c_rel c) -
                        default date_1900 (date <$> release_of_rank g (R + 1))))
      then Some R
      else rank <$> release_of_rank g (R + 1).
Proof.
  intros (k & hm & hr & Hk & Hm & Hr & ->)%classify_group_lookup Hb.
  assert (NoDup (rank <$> (rel <$> chronK))) as Hnd by (by rewrite chronK_Permutation).
  pose proof (expanding_max_max_of _ _ _ Hr) as Hmax.
  apply expanding_max_spec in Hr as [_ (j & Hj & Hjr)].
  rewrite list_lookup_fmap, fmap_Some in Hjr. destruct Hjr as (p & Hp & ->).
  assert (p ∈ rel <$> chronK) as Hin by (by eapply list_elem_of_lookup_2).
  exists (rank p), p. split_and!.
  - by rewrite fmap_take, classify_group_rel.
  - by rewrite <- chronK_Permutation.
  - done.
  - simpl. destruct (decide (j = i)) as [->|Hne].
    + rewrite list_lookup_fmap, Hk in Hp. simpl in Hp. by simplify_eq.
    + assert (chron_le p (rel k)) as Hle.
      { eapply (StronglySorted_lookup chron_le (rel <$> chronK) j i);
          [apply chronK_sorted|done|by rewrite list_lookup_fmap, Hk|lia]. }
      unfold chron_le, pair_le in Hle. simpl in Hle. lia.
  - unfold attribute_row, closest, where_backported in *. simpl in *.
    destruct (decide (major (rel k) < hm)); [|done]. simpl.
    rewrite (release_of_rank_unique _ p Hnd Hin). simpl.
    rewrite (release_of_rank_perm _ _ (rank p + 1) Hnd chronK_Permutation).
    destruct (release_of_rank (rel <$> chronK) (rank p + 1)) as [n|]; simpl.
    + case_bool_decide; case_decide; try done. f_equal. lia.
    + case_bool_decide; case_decide; done.
Qed.
End classify.

(** A release that is not flagged went through both joins with a NaN key:
    it matched nothing and carries no attribution. *)
Lemma attribute_unflagged df c :
  c ∈ attribute df → backported c = false → backported_from c = None.
Proof.
  unfold attribute. intros (j & -> & Hj)%list_elem_of_fmap Hb.
  apply elem_of_merge_left in Hj as (j1 & Hj1 & Hj).
  apply elem_of_merge_left in Hj1 as (f & Hf & Hj1).
  assert (f_backported (j_row j1) = None) as Hkey.
  { unfold closest in Hb. simpl in Hb.
    destruct Hj as [[_ ->]|(b & _ & _ & ->)]; simpl in Hb;
      by destruct (f_backported (j_row j1)). }
  assert (f_backported f = None) as Hkey'.
  { by destruct Hj1 as [[_ ->]|(b & _ & _ & ->)]. }
  destruct Hj as [[_ ->]|(b & _ & Hon & _)].
  - destruct Hj1 as [[_ ->]|(b & _ & Hon & _)].
    + reflexivity.
    + unfold on_backported in Hon. congruence.
  - unfold on_backported in Hon. congruence.
Qed.

End PrepareFacts.

(** * Grouping *)

Section grouping.
Context {A K : Type} `{EqDecision K}.
Implicit Types (l seen : list K) (df : list A).

Lemma elem_of_drop_duplicates_from seen l x :
  x ∈ drop_duplicates_from seen l ↔ x ∈ l ∧ x ∉ seen.
Proof.
  revert seen. induction l as [|k l IH]; intros seen; simpl.
  - rewrite elem_of_nil. tauto.
  - destruct (decide (k ∈ seen)) as [Hk|Hk].
    + rewrite IH, elem_of_cons. split; [tauto|].
      intros [[->|?] ?]; tauto.
    + rewrite !elem_of_cons, IH, not_elem_of_cons. split.
      * intros [->|[? [??]]]; tauto.
      * intros [[->|?] ?]; [tauto|].
        destruct (decide (x = k)); tauto.
Qed.

Lemma NoDup_drop_duplicates_from seen l : NoDup (drop_duplicates_from seen l).
Proof.
  revert seen. induction l as [|k l IH]; intros seen; simpl; [constructor|].
  destruct (decide (k ∈ seen)); [apply IH|].
  constructor; [|apply IH].
  rewrite elem_of_drop_duplicates_from, not_elem_of_cons. tauto.
Qed.

Lemma elem_of_drop_duplicates l x : x ∈ drop_duplicates l ↔ x ∈ l.
Proof.
  unfold drop_duplicates. rewrite elem_of_drop_duplicates_from, elem_of_nil. tauto.
Qed.

Lemma NoDup_drop_duplicates l : NoDup (drop_duplicates l).
Proof. apply NoDup_drop_duplicates_from. Qed.

Lemma elem_of_groupby (key : A → K) df k rows :
  (k, rows) ∈ groupby key df ↔ k ∈ key <$> df ∧ rows = filter (λ a, key a = k) df.
Proof.
  unfold groupby. rewrite list_elem_of_fmap. split.
  - intros (k' & Heq & Hk). inversion Heq; subst.
    rewrite elem_of_drop_duplicates in Hk. done.
  - intros [Hk ->]. exists k. by rewrite elem_of_drop_duplicates.
Qed.

(** The groups of a frame partition its rows. *)
Lemma join_cons {X} (x : list X) (ls : list (list X)) :
  mjoin (x :: ls) = x ++ mjoin ls.
Proof. reflexivity. Qed.

Lemma partition_others (key : A → K) (ks : list K) a df :
  key a ∉ ks →
  mjoin ((λ k, filter (λ a, key a = k) (a :: df)) <$> ks) =
  mjoin ((λ k, filter (λ a, key a = k) df) <$> ks).
Proof.
  induction ks as [|k ks IH]; intros Hnin; [done|].
  apply not_elem_of_cons in Hnin as [??].
  rewrite !fmap_cons, !join_cons.
  rewrite filter_cons_False by done. by rewrite IH.
Qed.

(** The groups of a frame partition its rows. *)
Lemma partition_cons (key : A → K) (ks : list K) a df :
  NoDup ks → key a ∈ ks →
  mjoin ((λ k, filter (λ a, key a = k) (a :: df)) <$> ks) ≡ₚ
  a :: mjoin ((λ k, filter (λ a, key a = k) df) <$> ks).
Proof.
  induction 1 as [|k ks Hk Hnd IH]; intros Hin; [by apply elem_of_nil in Hin|].
  rewrite !fmap_cons, !join_cons.
  destruct (decide (key a = k)) as [Heq|Hne].
  - rewrite filter_cons_True by done.
    rewrite partition_others by (by rewrite Heq). done.
  - rewrite filter_cons_False by done.
    apply elem_of_cons in Hin as [?|Hin]; [done|].
    rewrite (IH Hin). by rewrite Permutation_middle.
Qed.

Lemma partition_Permutation (key : A → K) (ks : list K) df :
  NoDup ks → (∀ a, a ∈ df → key a ∈ ks) →
  mjoin ((λ k, filter (λ a, key a = k) df) <$> ks) ≡ₚ df.
Proof.
  intros Hnd. induction df as [|a df IH]; intros Hin.
  - clear. induction ks as [|k ks IHk]; [done|].
    rewrite fmap_cons, join_cons. by rewrite IHk.
  - rewrite partition_cons; [|done|apply Hin, elem_of_cons; by left].
    f_equiv. apply IH. intros a' Ha'. apply Hin, elem_of_cons. by right.
Qed.

Lemma groupby_Permutation (key : A → K) df :
  mjoin (snd <$> groupby key df) ≡ₚ df.
Proof.
  unfold groupby. rewrite <- list_fmap_compose.
  apply partition_Permutation; [apply NoDup_drop_duplicates|].
  intros a Ha. apply elem_of_drop_duplicates. by apply list_elem_of_fmap_2.
Qed.
End grouping.

(** * Calls that return *)

Section outcome.
Context {A B : Type} (f : A → Outcome B).

Lemma mapM_Return (l : list A) (k : list B) :
  mapM f l = Return k ↔ Forall2 (λ x y, f x = Return y) l k.
Proof.
  revert k. induction l as [|x l IH]; intros k; simpl.
  - split.
    + intros Hk. inversion Hk. constructor.
    + by inversion 1.
  - split.
    + destruct (f x) as [y|] eqn:Hy; simpl; [|done].
      destruct (mapM f l) as [k'|] eqn:Hk; simpl; [|done].
      intros Hr. inversion Hr; subst. constructor; [done|]. by apply IH.
    + inversion 1 as [|?? l' k' Hy Hk]; simplify_eq.
      rewrite Hy. simpl. apply IH in Hk. by rewrite Hk.
Qed.
End outcome.

Lemma mapM_pure {A B} (f : A → Outcome B) (g : A → B) (l : list A) :
  (∀ x, x ∈ l → f x = Return (g x)) → mapM f l = Return (g <$> l).
Proof.
  intros Hf. apply mapM_Return. induction l as [|x l IH]; [constructor|].
  rewrite fmap_cons. constructor.
  - apply Hf, elem_of_cons. by left.
  - apply IH. intros x' ?. apply Hf, elem_of_cons. by right.
Qed.

(** * Constraint descriptors and selected releases ([prepare.py]) *)

Module SelectionFacts.
Import Prepare.

Section selection_facts.
Context {Interval : Type} `{Lib Interval}.
Implicit Types (parser : Parser Interval) (intervals : gmap string (Descr Interval)).

Lemma parse_or_empty_returns parser raw :
  ∃ interval, parse_or_empty parser raw = Return interval.
Proof. unfold parse_or_empty. destruct (parser raw); eauto. Qed.

Lemma convert_constraints_spec parser constraints intervals :
  ∃ intervals',
    convert_constraints parser constraints intervals = Return intervals' ∧
    ∀ c, (c ∉ constraints → intervals' !! c = intervals !! c) ∧
         (c ∈ constraints → ∀ interval,
            parse_or_empty parser c = Return interval →
            intervals' !! c = Some (describe interval)).
Proof.
  revert intervals. induction constraints as [|c0 rest IH]; intros intervals.
  - exists intervals. split; [done|]. intros c. split; [done|].
    by intros []%elem_of_nil.
  - destruct (parse_or_empty_returns parser c0) as [i0 Hi0].
    destruct (IH (<[c0 := describe i0]> intervals)) as (m' & Hm' & Hspec).
    exists m'. split.
    { simpl. rewrite Hi0. exact Hm'. }
    intros c. destruct (Hspec c) as [Hout Hin]. split.
    + intros [Hne Hnin]%not_elem_of_cons.
      rewrite (Hout Hnin). by apply lookup_insert_ne.
    + intros Hc interval Hi.
      destruct (decide (c ∈ rest)) as [Hrest|Hrest]; [by apply Hin|].
      apply elem_of_cons in Hc as [->|?]; [|done].
      rewrite (Hout Hrest), lookup_insert_eq. congruence.
Qed.

Lemma constraint_intervals_spec parser (df_dependents : list Dependent) :
  ∃ intervals,
    constraint_intervals parser df_dependents = Return intervals ∧
    ∀ e interval,
      e ∈ df_dependents →
      parse_or_empty parser (constraint e) = Return interval →
      intervals !! constraint e = Some (describe interval).
Proof.
  unfold constraint_intervals.
  destruct (convert_constraints_spec parser
              (drop_duplicates (constraint <$> df_dependents)) ∅)
    as (m & Hm & Hspec).
  exists m. split; [done|]. intros e interval He Hi.
  apply (Hspec (constraint e)); [|done].
  apply elem_of_drop_duplicates. by apply list_elem_of_fmap_2.
Qed.

(** ** The scan over the releases in descending rank *)

Lemma highest_accepted_None (releases : list Candidate) interval :
  highest_accepted releases interval = None ↔
  ∀ r, r ∈ releases → interval_contains (cand_version r) interval = false.
Proof.
  induction releases as [|r rs IH]; simpl.
  - split; [|done]. by intros _ r []%elem_of_nil.
  - destruct (interval_contains (cand_version r) interval) eqn:Hr.
    + split; [done|]. intros Hall.
      rewrite Hall in Hr; [done|]. apply elem_of_cons. by left.
    + rewrite IH. split.
      * intros Hall r' [->|?]%elem_of_cons; auto.
      * intros Hall r' ?. apply Hall, elem_of_cons. by right.
Qed.

Lemma highest_accepted_Some (releases : list Candidate) interval k :
  StronglySorted rank_ge releases →
  highest_accepted releases interval = Some k →
  ∃ r, r ∈ releases ∧ rank (c_rel (cand r)) = k ∧
       interval_contains (cand_version r) interval = true ∧
       ∀ r', r' ∈ releases → interval_contains (cand_version r') interval = true →
             rank (c_rel (cand r')) ≤ k.
Proof.
  induction 1 as [|r rs Hs IH Hall]; simpl; [done|].
  destruct (interval_contains (cand_version r) interval) eqn:Hr.
  - intros ?; simplify_eq. exists r. split_and!; [apply elem_of_cons; by left|done..|].
    intros r' [->|Hr']%elem_of_cons _; [lia|].
    rewrite Forall_forall in Hall. apply (Hall r' Hr').
  - intros Hk. destruct (IH Hk) as (r0 & Hin & Hrank & Hacc & Hmax).
    exists r0. split_and!; [apply elem_of_cons; by right|done..|].
    intros r' [->|Hr']%elem_of_cons Hacc'; [congruence|]. by apply Hmax.
Qed.

Lemma elem_of_target_releases (df_required : list Classified) target r :
  r ∈ target_releases df_required target ↔
  ∃ c, c ∈ df_required ∧ package (c_rel c) = target ∧
       r = mkCandidate c (Version_of_string (version (c_rel c))).
Proof.
  unfold target_releases.
  rewrite merge_sort_Permutation, list_elem_of_fmap.
  split.
  - intros (c & -> & [??]%list_elem_of_filter). eauto.
  - intros (c & ? & ? & ->). exists c. split; [done|]. by apply list_elem_of_filter.
Qed.

Lemma target_releases_sorted (df_required : list Classified) target :
  StronglySorted rank_ge (target_releases df_required target).
Proof.
  apply StronglySorted_merge_sort.
  - intros a b c. unfold rank_ge. lia.
  - intros a b. unfold rank_ge. lia.
Qed.

Lemma highest_accepted_target (df_required : list Classified) target interval :
  highest_rank_accepted df_required target interval
    (highest_accepted (target_releases df_required target) interval).
Proof.
  unfold highest_rank_accepted, accepted.
  destruct (highest_accepted _ interval) as [k|] eqn:Hk.
  - apply highest_accepted_Some in Hk as (r & Hr & Hrank & Hacc & Hmax);
      [|apply target_releases_sorted].
    apply elem_of_target_releases in Hr as (c & Hc & Hp & ->).
    exists c. split_and!; [done..|].
    intros c' Hc' Hp' Hacc'.
    apply (Hmax (mkCandidate c' (Version_of_string (version (c_rel c'))))); [|done].
    apply elem_of_target_releases. eauto.
  - rewrite highest_accepted_None in Hk. intros c Hc Hp Hacc.
    assert (interval_contains (Version_of_string (version (c_rel c))) interval = false)
      as Hno; [|congruence].
    apply (Hk (mkCandidate c (Version_of_string (version (c_rel c))))).
    apply elem_of_target_releases. eauto.
Qed.

(** ** The two loops *)

Section loops.
Variables (df_required : list Classified) (intervals : gmap string (Descr Interval)).
Variable df_dependents : list Dependent.
Hypothesis known : ∀ e, e ∈ df_dependents → is_Some (intervals !! constraint e).

(** The frame appended for one constraint group, and the frames of one
    target group. *)
Local Abbreviation frame releases :=
  (λ cg : string * list Dependent,
     match intervals !! cg.1 with
     | Some d => assign_selected d (highest_accepted releases (d_interval d)) <$> cg.2
     | None => []
     end).
Local Abbreviation frames :=
  (λ tg : string * list Dependent,
     frame (target_releases df_required tg.1) <$> groupby constraint tg.2).

Lemma target_group_rows tg e :
  tg ∈ groupby target df_dependents → e ∈ tg.2 →
  e ∈ df_dependents ∧ target e = tg.1.
Proof.
  destruct tg as [t group]. intros [_ ->]%elem_of_groupby Hin. simpl in *.
  apply list_elem_of_filter in Hin. tauto.
Qed.

Lemma constraint_group_rows tg cg e :
  tg ∈ groupby target df_dependents → cg ∈ groupby constraint tg.2 → e ∈ cg.2 →
  e ∈ df_dependents ∧ target e = tg.1 ∧ constraint e = cg.1.
Proof.
  destruct cg as [c cgroup]. intros Htg [_ ->]%elem_of_groupby Hin. simpl in *.
  apply list_elem_of_filter in Hin as [? Hin].
  destruct (target_group_rows tg e Htg Hin). done.
Qed.

Lemma constraint_group_known tg cg :
  tg ∈ groupby target df_dependents → cg ∈ groupby constraint tg.2 →
  is_Some (intervals !! cg.1).
Proof.
  intros Htg Hcg. pose proof Hcg as Hcg'.
  destruct cg as [c cgroup]. apply elem_of_groupby in Hcg' as [Hc _].
  apply list_elem_of_fmap in Hc as (e & -> & He).
  apply known. by destruct (target_group_rows tg e Htg He).
Qed.

Lemma select_target_returns tg :
  tg ∈ groupby target df_dependents →
  select_target df_required intervals tg = Return (frames tg).
Proof.
  intros Htg. unfold select_target. apply mapM_pure. intros cg Hcg.
  destruct (constraint_group_known tg cg Htg Hcg) as [d Hd].
  unfold select_constraint, lookup_interval. by rewrite Hd.
Qed.

Lemma identify_selected_returns :
  identify_selected df_required intervals df_dependents =
  Return (mjoin (mjoin (frames <$> groupby target df_dependents))).
Proof.
  unfold identify_selected.
  rewrite (mapM_pure _ frames); [done|]. apply select_target_returns.
Qed.

Lemma frames_edges tg :
  tg ∈ groupby target df_dependents → edge <$> mjoin (frames tg) ≡ₚ tg.2.
Proof.
  intros Htg.
  transitivity (mjoin (snd <$> groupby constraint tg.2));
    [|apply groupby_Permutation].
  assert (∀ cg, cg ∈ groupby constraint tg.2 → is_Some (intervals !! cg.1)) as Hk
    by (intros; by eapply constraint_group_known).
  induction (groupby constraint tg.2) as [|cg cgs IH]; [done|].
  rewrite !fmap_cons, !join_cons, fmap_app.
  rewrite IH by (intros; apply Hk, elem_of_cons; by right).
  destruct (Hk cg) as [d Hd]; [apply elem_of_cons; by left|].
  rewrite Hd, <- list_fmap_compose. simpl.
  by rewrite list_fmap_id.
Qed.

Lemma identify_selected_edges :
  edge <$> mjoin (mjoin (frames <$> groupby target df_dependents)) ≡ₚ df_dependents.
Proof.
  transitivity (mjoin (snd <$> groupby target df_dependents));
    [|apply groupby_Permutation].
  assert (∀ tg, tg ∈ groupby target df_dependents →
                tg ∈ groupby target df_dependents) as Hsub by done.
  revert Hsub. generalize (groupby target df_dependents) at 1 3 4.
  intros tgs Hsub. induction tgs as [|tg tgs IH]; [done|].
  rewrite !fmap_cons, !join_cons, join_app, fmap_app.
  rewrite IH by (intros; apply Hsub, elem_of_cons; by right).
  rewrite frames_edges by (apply Hsub, elem_of_cons; by left). done.
Qed.

Lemma identify_selected_rows row :
  row ∈ mjoin (mjoin (frames <$> groupby target df_dependents)) →
  ∃ d, edge row ∈ df_dependents ∧
       intervals !! constraint (edge row) = Some d ∧
       row = assign_selected d
               (highest_accepted
                  (target_releases df_required (target (edge row)))
                  (d_interval d))
               (edge row).
Proof.
  intros (fr & Hrow & (frs & Hfr & Hfrs)%list_elem_of_join)%list_elem_of_join.
  apply list_elem_of_fmap in Hfrs as (tg & -> & Htg).
  apply list_elem_of_fmap in Hfr as (cg & -> & Hcg).
  destruct (constraint_group_known tg cg Htg Hcg) as [d Hd].
  rewrite Hd in Hrow. apply list_elem_of_fmap in Hrow as (e & -> & He).
  destruct (constraint_group_rows tg cg e Htg Hcg He) as (Hin & Ht & Hc).
  exists d. simpl. rewrite Ht, Hc. done.
Qed.
End loops.
End selection_facts.

End SelectionFacts.

(** * The interval model of the specification *)

Module SpecIntervalFacts.
Import SpecInterval.

Lemma contains_empty v : contains v [] = false.
Proof. reflexivity. Qed.

Lemma version_lt_unbounded v u :
  version_lt v u = true → version_lt v unbounded = true.
Proof.
  unfold version_lt, version_compare, unbounded.
  destruct v as [[a|] [b|] [c|]], u as [[a'|] [b'|] [c'|]]; simpl; try done;
    repeat case_match; done.
Qed.

Lemma in_range_widen v r :
  in_range v r = true → in_range v (mkRange (lower r) unbounded) = true.
Proof.
  unfold in_range. simpl. intros [Hl Hu]%andb_true_iff.
  rewrite Hl. simpl. by eapply version_lt_unbounded.
Qed.

(** Widening the upper bound only adds versions. *)
Lemma widen_upper_contains v (i : Interval) :
  contains v i = true → contains v (widen_upper i) = true.
Proof.
  unfold contains. induction i as [|r rest IH]; [done|].
  destruct rest as [|r' rest'].
  - simpl. rewrite !orb_false_r. apply in_range_widen.
  - change (widen_upper (r :: r' :: rest')) with (r :: widen_upper (r' :: rest')).
    cbn [existsb]. intros [Hr|Hrest]%orb_true_iff.
    + by rewrite Hr.
    + rewrite (IH Hrest). apply orb_true_r.
Qed.

(** A range that holds (infinity, 0, 0) has no finite bound on the major
    component. *)
Lemma version_lt_next_major u :
  version_lt (mkVersion Infinity (Finite 0) (Finite 0)) u = true →
  vmajor u = Infinity.
Proof.
  unfold version_lt, version_compare.
  destruct u as [[a|] [b|] [c|]]; simpl; done.
Qed.

Lemma contains_next_major (i : Interval) :
  contains (mkVersion Infinity (Finite 0) (Finite 0)) i = true →
  ∃ r, r ∈ i ∧ vmajor (upper r) = Infinity.
Proof.
  unfold contains. induction i as [|r rest IH]; [done|].
  cbn [existsb]. intros [Hr|Hrest]%orb_true_iff.
  - exists r. split; [apply elem_of_cons; by left|].
    unfold in_range in Hr. apply andb_true_iff in Hr as [_ Hu].
    by apply version_lt_next_major.
  - destruct (IH Hrest) as (r' & ? & ?). exists r'.
    split; [apply elem_of_cons; by right|done].
Qed.

End SpecIntervalFacts.

(** * Rank assignment *)

Lemma rank_group_same_rank (group : list Convert.Row) a b :
  a ∈ Convert.rank_group group → b ∈ Convert.rank_group group →
  rank a = rank b → triple a = triple b.
Proof.
  intros (i & Ha)%list_elem_of_lookup (j & Hb)%list_elem_of_lookup Heq.
  apply ConvertFacts.rank_group_lookup in Ha as (a' & Ha' & ->).
  apply ConvertFacts.rank_group_lookup in Hb as (b' & Hb' & ->).
  apply list_elem_of_lookup_2, (ConvertFacts.by_date_elem group) in Ha' as (ia & x & Hx & ->).
  apply list_elem_of_lookup_2, (ConvertFacts.by_date_elem group) in Hb' as (ib & y & Hy & ->).
  simpl in Heq. assert (ia = ib) as -> by lia. by simplify_eq.
Qed.

(** The ranks [convert.py] hands to [prepare.py] are distinct. *)
Lemma rank_group_ranks_unique (group : list Convert.Row) :
  NoDup (rank <$> Convert.rank_group group).
Proof.
  rewrite ConvertFacts.rank_group_rank.
  apply NoDup_fmap_2; [apply _|]. apply NoDup_seq.
Qed.

(** C9. For every package group, [rank] is a dense 1..N ranking of the
    group's releases in ascending (major, minor, patch) order, and
    [rank_date] is a dense 1..N ranking of the same releases in ascending
    date order, equal dates being ordered by [rank]. *)
Theorem rank_assignment (group : list Convert.Row) :
  let out := Convert.rank_group group in
  Convert.unranked <$> out ≡ₚ group ∧
  rank <$> out ≡ₚ Z.of_nat <$> seq 1 (length group) ∧
  rank_date <$> out ≡ₚ Z.of_nat <$> seq 1 (length group) ∧
  (∀ a b, a ∈ out → b ∈ out →
     (rank a < rank b → triple_le (triple a) (triple b)) ∧
     (triple_lt (triple a) (triple b) → rank a < rank b)) ∧
  (∀ a b, a ∈ out → b ∈ out → rank_date a < rank_date b →
     date a < date b ∨ (date a = date b ∧ rank a ≤ rank b)).
Proof.
  intros out. split_and!.
  - apply ConvertFacts.rank_group_unranked.
  - apply ConvertFacts.rank_group_rank.
  - unfold out. by rewrite ConvertFacts.rank_group_rank_date.
  - intros a b Ha Hb. split.
    + by apply (ConvertFacts.rank_group_version_order group).
    + intros Hlt. apply triple_lt_le in Hlt as [Hle Hne].
      destruct (Z.lt_trichotomy (rank a) (rank b)) as [?|[Heq|Hgt]]; [done|..].
      * destruct Hne. by eapply rank_group_same_rank.
      * destruct Hne. apply triple_le_antisym; [done|].
        by apply (ConvertFacts.rank_group_version_order group).
  - intros a b Ha Hb Hlt.
    by apply (ConvertFacts.rank_group_date_order group a b).
Qed.

Lemma rank_assignment_witness :
  let a := mkRelease "pkg" "1.1.0" 1 1 0 2 10 2 in
  let b := mkRelease "pkg" "2.0.0" 2 0 0 3 10 3 in
  triple_le (triple a) (triple b) ∧
  (date a < date b ∨ (date a = date b ∧ rank a ≤ rank b)).
Proof.
  intros a b.
  destruct (rank_assignment Fixtures.unranked_rows) as (_ & _ & _ & Hversion & Hdate).
  assert (a ∈ Convert.rank_group Fixtures.unranked_rows) as Ha by compute_done.
  assert (b ∈ Convert.rank_group Fixtures.unranked_rows) as Hb by compute_done.
  split.
  - apply (Hversion a b Ha Hb). simpl. lia.
  - apply (Hdate a b Ha Hb). simpl. lia.
Defined.

(** * Update kind *)

Lemma classify_group_kinds (g : list Release) :
  NoDup (rank <$> g) →
  (λ c, (Prepare.c_rel c, Prepare.c_kind c)) <$> Prepare.classify_group g ≡ₚ
  (λ k, (Prepare.rel k, Prepare.kind k)) <$> Prepare.assign_kind g.
Proof.
  intros Hnd. rewrite (PrepareFacts.classify_group_rows g Hnd).
  rewrite <- list_fmap_compose.
  set (chronK := merge_sort Prepare.chron_leK (Prepare.assign_kind g)).
  assert ((λ c, (Prepare.c_rel c, Prepare.c_kind c)) ∘
            Prepare.attribute_row (Prepare.rel <$> chronK) <$>
            Prepare.flag_backported chronK =
          (λ k, (Prepare.rel k, Prepare.kind k)) <$>
            (Prepare.f_row <$> Prepare.flag_backported chronK)) as ->.
  { rewrite <- list_fmap_compose. by apply list_fmap_ext. }
  rewrite PrepareFacts.flag_backported_rows. unfold chronK.
  by rewrite merge_sort_Permutation.
Qed.

(** When the version grows from one rank to the next, as it does for
    releases ranked by [convert.py], one of the three components has a
    positive delta and the kind is never the default. *)
Lemma kind_of_next_ascending r p :
  triple_lt (triple p) (triple r) → Prepare.kind_of r (Some p) ≠ Prepare.Initial.
Proof.
  rewrite PrepareFacts.kind_of_next. unfold triple_lt, triple.
  intros Hlt. repeat case_decide; try done. lia.
Qed.

(** C3 (amended). With a package's releases sorted ascending by rank, the
    first release gets [initial]; every other release gets the first of
    [major], [minor], [patch] whose delta from the previous release is
    positive; a release with no positive delta gets [initial] again, which
    is what [idxmax] answers on four false flags.  The kinds reach the
    classified rows unchanged. *)
Theorem update_kind_classification (g : list Release) :
  let d := Prepare.assign_kind g in
  Prepare.rel <$> d ≡ₚ g ∧
  StronglySorted Prepare.rank_le (Prepare.rel <$> d) ∧
  (∀ (i : nat) k, d !! i = Some k →
     match i with
     | O => Prepare.kind k = Prepare.Initial
     | S j =>
         ∃ p, d !! j = Some p ∧
           Prepare.kind k =
             if decide (0 < major (Prepare.rel k) - major (Prepare.rel p))
             then Prepare.Major
             else if decide (0 < minor (Prepare.rel k) - minor (Prepare.rel p))
             then Prepare.Minor
             else if decide (0 < patch (Prepare.rel k) - patch (Prepare.rel p))
             then Prepare.Patch
             else Prepare.Initial
     end) ∧
  (NoDup (rank <$> g) →
     (λ c, (Prepare.c_rel c, Prepare.c_kind c)) <$> Prepare.classify_group g ≡ₚ
     (λ k, (Prepare.rel k, Prepare.kind k)) <$> d).
Proof.
  intros d. split_and!.
  - apply PrepareFacts.assign_kind_Permutation.
  - apply PrepareFacts.assign_kind_sorted.
  - intros i k Hk. apply PrepareFacts.assign_kind_lookup in Hk as (r & Hr & ->).
    destruct i as [|j]; [done|].
    assert (j < length (merge_sort Prepare.rank_le g))%nat as Hj
      by (apply lookup_lt_Some in Hr; lia).
    apply lookup_lt_is_Some in Hj as [p Hp].
    exists (Prepare.mkKinded p (Prepare.kind_of p (match j with
                                                   | O => None
                                                   | S j' => merge_sort Prepare.rank_le g !! j'
                                                   end))).
    split.
    + apply PrepareFacts.assign_kind_lookup. eauto.
    + simpl. rewrite Hp. apply PrepareFacts.kind_of_next.
  - apply classify_group_kinds.
Qed.

Lemma update_kind_classification_witness :
  (λ k, (version (Prepare.rel k), Prepare.kind k)) <$> Prepare.assign_kind Fixtures.history !! 2%nat =
    Some ("2.0.0", Prepare.Major) ∧
  (λ c, (Prepare.c_rel c, Prepare.c_kind c)) <$> Prepare.classify_group Fixtures.history ≡ₚ
  (λ k, (Prepare.rel k, Prepare.kind k)) <$> Prepare.assign_kind Fixtures.history.
Proof.
  destruct (update_kind_classification Fixtures.history) as (_ & _ & Hkind & Hrows).
  split.
  - assert (Prepare.assign_kind Fixtures.history !! 2%nat =
            Some (Prepare.mkKinded (Fixtures.release "2.0.0" 2 0 0 3 10 2) Prepare.Major))
      as Hk by (vm_compute; reflexivity).
    destruct (Hkind 2%nat _ Hk) as (p & Hp & Hkp).
    rewrite Hk. reflexivity.
  - apply Hrows. compute_done.
Defined.

(** The claim as the specification words it fails: the second of two rows
    with the same version triple is not given [patch]. *)
Lemma update_kind_default_counterexample :
  ¬ (∀ (g : list Release) (j : nat) k p,
       Prepare.assign_kind g !! S j = Some k →
       Prepare.assign_kind g !! j = Some p →
       Prepare.kind k =
         if decide (0 < major (Prepare.rel k) - major (Prepare.rel p))
         then Prepare.Major
         else if decide (0 < minor (Prepare.rel k) - minor (Prepare.rel p))
         then Prepare.Minor
         else Prepare.Patch).
Proof.
  intros Hclaim.
  specialize (Hclaim Fixtures.repeated 0%nat
                (Prepare.mkKinded (Fixtures.release "1.0.0" 1 0 0 2 10 2) Prepare.Initial)
                (Prepare.mkKinded (Fixtures.release "1.0.0" 1 0 0 1 0 1) Prepare.Initial)
                eq_refl eq_refl).
  vm_compute in Hclaim. discriminate.
Qed.

(** * Backports *)

(** C1. Processed in chronological order (ascending date, equal dates by
    rank), a release is flagged backported if and only if its own major is
    strictly less than the maximum major among the releases strictly before
    it; a release whose major equals or exceeds every earlier major is not
    flagged. *)
Theorem backport_detection (g : list Release) :
  NoDup (rank <$> g) →
  let out := Prepare.classify_group g in
  let chron := Prepare.c_rel <$> out in
  chron ≡ₚ g ∧
  StronglySorted chron_le chron ∧
  ∀ (i : nat) c, out !! i = Some c →
    (Prepare.backported c = true ↔
       ∃ m, max_of (major <$> take i chron) = Some m ∧ major (Prepare.c_rel c) < m) ∧
    ((∀ (j : nat) r, (j < i)%nat → chron !! j = Some r →
        major r ≤ major (Prepare.c_rel c)) →
     Prepare.backported c = false).
Proof.
  intros Hnd out chron. split_and!.
  - by apply PrepareFacts.classify_group_Permutation.
  - by apply PrepareFacts.classify_group_sorted.
  - intros i c Hc.
    pose proof (PrepareFacts.classify_group_backported g Hnd i c Hc) as Hiff.
    split; [exact Hiff|].
    intros Hall. apply not_true_is_false. intros Hb.
    apply Hiff in Hb as (m & [Hin _]%max_of_spec & Hlt).
    apply list_elem_of_fmap in Hin as (r & -> & Hr).
    apply elem_of_take in Hr as (j & Hj & Hji).
    specialize (Hall j r Hji Hj). lia.
Qed.

Lemma backport_detection_witness :
  ∃ m, max_of (major <$> take 2 (Prepare.c_rel <$> Prepare.classify_group Fixtures.history))
         = Some m ∧ 1 < m.
Proof.
  assert (NoDup (rank <$> Fixtures.history)) as Hnd by compute_done.
  destruct (backport_detection Fixtures.history Hnd) as (_ & _ & Hflag).
  destruct (Hflag 2%nat
              (Prepare.mkClassified (Fixtures.release "1.1.0" 1 1 0 2 20 3)
                 Prepare.Minor true (Some 3)))
    as [Hiff _]; [by vm_compute|].
  apply Hiff. reflexivity.
Defined.

(** C2 (amended). For a release flagged backported, with [R] the running
    maximum of the ranks at that point, [backported_from] is [R] when the
    release of rank [R] is at least as close in date as the release of rank
    [R + 1], and [R + 1] when that one is strictly closer; a missing
    release of rank [R + 1] counts as dated 1900-01-01, so it is never
    chosen when the release of rank [R] is not older than that. *)
Theorem backport_attribution (g : list Release) (i : nat) c :
  NoDup (rank <$> g) →
  Prepare.classify_group g !! i = Some c →
  Prepare.backported c = true →
  ∃ R p,
    max_of (rank <$> take (S i) (Prepare.c_rel <$> Prepare.classify_group g)) = Some R ∧
    p ∈ g ∧ rank p = R ∧
    (∀ n, n ∈ g → rank n = R + 1 →
       Prepare.backported_from c =
         Some (if decide (Z.abs (date (Prepare.c_rel c) - date p) ≤
                          Z.abs (date (Prepare.c_rel c) - date n))
               then R else R + 1)) ∧
    ((∀ n, n ∈ g → rank n ≠ R + 1) →
       Prepare.backported_from c =
         (if decide (Z.abs (date (Prepare.c_rel c) - date p) ≤
                     Z.abs (date (Prepare.c_rel c) - Prepare.date_1900))
          then Some R else None) ∧
       (Prepare.date_1900 ≤ date p → Prepare.backported_from c = Some R)).
Proof.
  intros Hnd Hc Hb.
  destruct (PrepareFacts.classify_group_from g Hnd i c Hc Hb)
    as (R & p & Hmax & Hp & HR & Hdate & Hfrom).
  exists R, p. split_and!; [done..| |].
  - intros n Hn Hrank.
    assert (Prepare.release_of_rank g (R + 1) = Some n) as Hnext.
    { rewrite <- Hrank. by apply PrepareFacts.release_of_rank_unique. }
    rewrite Hfrom, Hnext. clear Hfrom. simpl. case_decide; [done|]. by rewrite Hrank.
  - intros Hnone.
    assert (Prepare.release_of_rank g (R + 1) = None) as Hnext
      by (by apply PrepareFacts.release_of_rank_None).
    rewrite Hfrom, Hnext. clear Hfrom. simpl. split; [done|].
    intros H1900. case_decide; [done|]. lia.
Qed.

Lemma backport_attribution_witness :
  Prepare.backported_from
    (Prepare.mkClassified (Fixtures.release "1.1.0" 1 1 0 2 20 3) Prepare.Minor true (Some 3))
  = Some 3.
Proof.
  assert (NoDup (rank <$> Fixtures.history_short)) as Hnd by compute_done.
  destruct (backport_attribution Fixtures.history_short 2%nat
              (Prepare.mkClassified (Fixtures.release "1.1.0" 1 1 0 2 20 3)
                 Prepare.Minor true (Some 3)) Hnd)
    as (R & p & Hmax & Hp & HR & _ & Hshort); [by vm_compute|reflexivity|].
  assert (R = 3) as -> by (vm_compute in Hmax; congruence).
  assert (p = Fixtures.release "2.0.0" 2 0 0 3 10 2) as ->.
  { apply (NoDup_fmap_eq rank Fixtures.history_short); [done..|compute_done|done]. }
  apply Hshort.
  - intros n Hn. vm_compute in Hn.
    repeat (apply elem_of_cons in Hn as [->|Hn]; [by vm_compute|]).
    by apply elem_of_nil in Hn.
  - by vm_compute.
Defined.

(** The claim as the specification words it fails on a tie: 1.1.0 comes
    out as long after 2.0.0 (rank 3) as before 3.0.0 (rank 4), and is
    attributed to rank 3. *)
Lemma backport_attribution_tie_counterexample :
  ¬ (∀ (g : list Release) (i : nat) c p n,
       NoDup (rank <$> g) →
       Prepare.classify_group g !! i = Some c →
       Prepare.backported c = true →
       max_of (rank <$> take (S i) (Prepare.c_rel <$> Prepare.classify_group g))
         = Some (rank p) →
       p ∈ g → n ∈ g → rank n = rank p + 1 →
       Prepare.backported_from c =
         Some (if decide (Z.abs (date (Prepare.c_rel c) - date p) <
                          Z.abs (date (Prepare.c_rel c) - date n))
               then rank p else rank n)).
Proof.
  intros Hclaim.
  assert (Some 3 = Some 4) as Hbad; [|discriminate].
  apply (Hclaim Fixtures.history 2%nat
           (Prepare.mkClassified (Fixtures.release "1.1.0" 1 1 0 2 20 3)
              Prepare.Minor true (Some 3))
           (Fixtures.release "2.0.0" 2 0 0 3 10 2)
           (Fixtures.release "3.0.0" 3 0 0 4 30 4)).
  - compute_done.
  - by vm_compute.
  - reflexivity.
  - by vm_compute.
  - compute_done.
  - compute_done.
  - reflexivity.
Qed.

(** The release of rank [R] wins when it is strictly closer or as close,
    the release of rank [R + 1] when it is strictly closer. *)
Example attribution_by_distance :
  let from g := Prepare.backported_from <$> Prepare.classify_group g !! 2%nat in
  from Fixtures.history_late = Some (Some 3) ∧
  from Fixtures.history = Some (Some 3) ∧
  from Fixtures.history_early = Some (Some 4).
Proof. repeat split; vm_compute; reflexivity. Qed.

(** The sentinel date is a date like any other: a package whose releases
    are older than 1900 can have its last backport attributed to the
    missing neighbour. *)
Example missing_neighbour_before_1900 :
  let old d := Prepare.date_1900 - d in
  (λ c, (rank (Prepare.c_rel c), Prepare.backported c, Prepare.backported_from c)) <$>
    Prepare.classify_group
      [ Fixtures.release "1.0.0" 1 0 0 1 (old 300) 1;
        Fixtures.release "2.0.0" 2 0 0 3 (old 200) 2;
        Fixtures.release "1.1.0" 1 1 0 2 (old 1) 3 ]
  = [ (1, false, None); (3, false, None); (2, true, None) ].
Proof. vm_compute. reflexivity. Qed.

(** C10. In the classification of a package, [backported_from] is absent
    for every release whose [backported] flag is false, in the loop's own
    frame and in the frame sorted for output. *)
Theorem unflagged_release_has_no_source (g : list Release) :
  (∀ c, c ∈ Prepare.classify_group g →
        Prepare.backported c = false → Prepare.backported_from c = None) ∧
  (∀ c, c ∈ Prepare.required_of g →
        Prepare.backported c = false → Prepare.backported_from c = None).
Proof.
  assert (∀ c, c ∈ Prepare.classify_group g →
               Prepare.backported c = false → Prepare.backported_from c = None) as Hloop.
  { intros c Hc. by apply (PrepareFacts.attribute_unflagged _ c Hc). }
  split; [exact Hloop|].
  intros c Hc. apply Hloop.
  unfold Prepare.required_of in Hc. by rewrite merge_sort_Permutation in Hc.
Qed.

Lemma unflagged_release_has_no_source_witness :
  Prepare.backported_from
    (Prepare.mkClassified (Fixtures.release "2.0.0" 2 0 0 3 10 2) Prepare.Major false None)
  = None.
Proof.
  apply (proj2 (unflagged_release_has_no_source Fixtures.history)).
  - compute_done.
  - reflexivity.
Defined.

(** * Constraints *)

Lemma describe_interval {Interval : Type} `{Lib Interval} (interval : Interval) :
  Prepare.d_interval (Prepare.describe interval) = interval.
Proof. unfold Prepare.describe. by destruct (interval_empty interval). Qed.

(** C5. For every parser and every input string, [parse_or_empty] returns
    an interval and never raises: the parser's interval when parsing
    succeeds, the empty interval when the parser raises. *)
Theorem parse_or_empty_total {Interval : Type} `{Lib Interval}
    (parser : Prepare.Parser Interval) (raw : string) :
  ∃ interval,
    Prepare.parse_or_empty parser raw = Return interval ∧
    (∀ e, parser raw = Raise e → interval = empty_interval) ∧
    (∀ parsed, parser raw = Return parsed → interval = parsed).
Proof.
  unfold Prepare.parse_or_empty. destruct (parser raw) as [parsed|e].
  - exists parsed. split_and!; [done| |]; intros ? ?; by simplify_eq.
  - exists empty_interval. split_and!; [done| |]; intros ? ?; by simplify_eq.
Qed.

Lemma parse_or_empty_total_witness :
  Prepare.parse_or_empty Fixtures.two_constraints "" = Return [].
Proof.
  destruct (parse_or_empty_total Fixtures.two_constraints "")
    as (interval & -> & Hfail & _).
  f_equal. apply (Hfail (ParseFailure "")). reflexivity.
Defined.

(** C7. For every constraint of the dependents, the dictionary holds the
    descriptors of its parsed interval, and when that interval is not
    empty the [major] descriptor is the membership of the version
    (infinity, 0, 0) in it. *)
Theorem major_descriptor {Interval : Type} `{Lib Interval}
    (parser : Prepare.Parser Interval) (df_dependents : list Prepare.Dependent) :
  ∃ intervals,
    Prepare.constraint_intervals parser df_dependents = Return intervals ∧
    ∀ e, e ∈ df_dependents →
      ∃ interval d,
        Prepare.parse_or_empty parser (Prepare.constraint e) = Return interval ∧
        intervals !! Prepare.constraint e = Some d ∧
        Prepare.d_interval d = interval ∧
        (interval_empty interval = false →
           Prepare.d_empty d = false ∧
           Prepare.d_major d =
             interval_contains (mkVersion Infinity (Finite 0) (Finite 0)) interval).
Proof.
  destruct (SelectionFacts.constraint_intervals_spec parser df_dependents)
    as (intervals & Hret & Hspec).
  exists intervals. split; [done|]. intros e He.
  destruct (SelectionFacts.parse_or_empty_returns parser (Prepare.constraint e))
    as [interval Hi].
  exists interval, (Prepare.describe interval). split_and!; [done|by apply Hspec|..].
  - apply describe_interval.
  - intros Hne. unfold Prepare.describe. by rewrite Hne.
Qed.

Lemma major_descriptor_witness :
  ∃ intervals d,
    Prepare.constraint_intervals Fixtures.two_constraints Fixtures.edges = Return intervals ∧
    intervals !! ">=1.2.0" = Some d ∧ Prepare.d_major d = true.
Proof.
  destruct (major_descriptor Fixtures.two_constraints Fixtures.edges)
    as (intervals & Hret & Hspec).
  destruct (Hspec (Prepare.mkDependent "lib" "0.3.0" 2 "pkg" ">=1.2.0"))
    as (interval & d & Hi & Hd & _ & Hmajor); [compute_done|].
  exists intervals, d. split_and!; [done..|].
  assert (Prepare.parse_or_empty Fixtures.two_constraints ">=1.2.0" = Return Fixtures.wide)
    as Hwide by reflexivity.
  simpl in Hi. rewrite Hwide in Hi. injection Hi as <-.
  destruct Hmajor as [_ ->]; reflexivity.
Defined.

(** C8. For every constraint whose parsed interval is empty, the
    descriptors are exactly [empty = true] and
    [major = minor = patch = dev = false]. *)
Theorem empty_interval_descriptors {Interval : Type} `{Lib Interval}
    (parser : Prepare.Parser Interval) (df_dependents : list Prepare.Dependent) :
  ∃ intervals,
    Prepare.constraint_intervals parser df_dependents = Return intervals ∧
    ∀ e interval,
      e ∈ df_dependents →
      Prepare.parse_or_empty parser (Prepare.constraint e) = Return interval →
      interval_empty interval = true →
      intervals !! Prepare.constraint e =
        Some (Prepare.mkDescr interval true false false false false).
Proof.
  destruct (SelectionFacts.constraint_intervals_spec parser df_dependents)
    as (intervals & Hret & Hspec).
  exists intervals. split; [done|]. intros e interval He Hi Hempty.
  rewrite (Hspec e interval He Hi). unfold Prepare.describe. by rewrite Hempty.
Qed.

Lemma empty_interval_descriptors_witness :
  ∃ intervals,
    Prepare.constraint_intervals Fixtures.two_constraints Fixtures.edges = Return intervals ∧
    intervals !! "latest" = Some (Prepare.mkDescr [] true false false false false).
Proof.
  destruct (empty_interval_descriptors Fixtures.two_constraints Fixtures.edges)
    as (intervals & Hret & Hspec).
  exists intervals. split; [done|].
  apply (Hspec (Prepare.mkDependent "cli" "1.0.0" 1 "pkg" "latest") []).
  - compute_done.
  - reflexivity.
  - reflexivity.
Defined.

(** * Selected releases *)

(** C4. The run over the dependents returns one row per dependency edge;
    in each row [selected] is the highest rank among the releases of the
    edge's target that the parsed interval of the edge's constraint
    contains, and it is absent when the interval contains none of them, in
    particular when the interval is empty. *)
Theorem selected_release {Interval : Type} `{Lib Interval}
    (parser : Prepare.Parser Interval) (df_required : list Prepare.Classified)
    (df_dependents : list Prepare.Dependent) :
  ∃ out,
    Prepare.resolve_dependents parser df_required df_dependents = Return out ∧
    Prepare.edge <$> out ≡ₚ df_dependents ∧
    ∀ row, row ∈ out →
      let e := Prepare.edge row in
      let interval := Prepare.r_interval row in
      Prepare.parse_or_empty parser (Prepare.constraint e) = Return interval ∧
      Prepare.highest_rank_accepted df_required (Prepare.target e) interval
        (Prepare.selected row) ∧
      ((∀ c, c ∈ df_required → package (Prepare.c_rel c) = Prepare.target e →
             ¬ Prepare.accepted c interval) →
       Prepare.selected row = None) ∧
      ((∀ v, interval_empty interval = true → interval_contains v interval = false) →
       interval_empty interval = true → Prepare.selected row = None).
Proof.
  destruct (SelectionFacts.constraint_intervals_spec parser df_dependents)
    as (intervals & Hret & Hspec).
  assert (∀ e, e ∈ df_dependents → is_Some (intervals !! Prepare.constraint e)) as Hknown.
  { intros e He.
    destruct (SelectionFacts.parse_or_empty_returns parser (Prepare.constraint e))
      as [interval Hi].
    rewrite (Hspec e interval He Hi). by eexists. }
  eexists. split_and!.
  - unfold Prepare.resolve_dependents. rewrite Hret. simpl.
    by apply SelectionFacts.identify_selected_returns.
  - by apply SelectionFacts.identify_selected_edges.
  - intros row Hrow.
    apply SelectionFacts.identify_selected_rows in Hrow as (d & He & Hd & ->); [|done].
    simpl.
    destruct (SelectionFacts.parse_or_empty_returns parser
                (Prepare.constraint (Prepare.edge row))) as [interval Hi].
    rewrite (Hspec _ interval He Hi) in Hd. injection Hd as <-.
    rewrite describe_interval.
    pose proof (SelectionFacts.highest_accepted_target df_required
                  (Prepare.target (Prepare.edge row)) interval) as Hhigh.
    split_and!; [done|done|..].
    + intros Hnone.
      destruct (Prepare.highest_accepted _ interval) as [k|]; [|done].
      destruct Hhigh as (c & Hc & Hp & _ & Hacc & _). by destruct (Hnone c Hc Hp).
    + intros Hlaw Hempty.
      destruct (Prepare.highest_accepted _ interval) as [k|]; [|done].
      destruct Hhigh as (c & _ & _ & _ & Hacc & _).
      unfold Prepare.accepted in Hacc. by rewrite Hlaw in Hacc.
Qed.

Lemma selected_release_witness :
  ∃ out,
    Prepare.resolve_dependents Fixtures.two_constraints
      (Prepare.required_of Fixtures.four_releases) Fixtures.edges = Return out ∧
    ∀ row, row ∈ out →
      interval_empty (Prepare.r_interval row) = true → Prepare.selected row = None.
Proof.
  destruct (selected_release Fixtures.two_constraints
              (Prepare.required_of Fixtures.four_releases) Fixtures.edges)
    as (out & Hret & _ & Hrows).
  exists out. split; [done|]. intros row Hrow Hempty.
  destruct (Hrows row Hrow) as (_ & _ & _ & Hlaw). apply Hlaw; [|done].
  intros v Hv. simpl in *. by destruct (Prepare.r_interval row).
Defined.

(** The example of the specification: [[1.2.0, 2.0.0)] over the releases
    1.0.0, 1.5.0, 1.9.0 and 2.0.0 selects 1.9.0, and without the upper
    bound it selects 2.0.0. *)
Example select_1_9_0 :
  let releases := Prepare.target_releases (Prepare.required_of Fixtures.four_releases) "pkg" in
  Prepare.highest_accepted releases Fixtures.narrow = Some 3 ∧
  Prepare.highest_accepted releases Fixtures.wide = Some 4.
Proof. split; vm_compute; reflexivity. Qed.

(** C6. For a fixed release set and two intervals of which the second
    contains every version of the first, as when the upper bound is widened
    to unbounded, a rank selected under the first comes with a rank
    selected under the second that is greater or equal. *)
Theorem selection_monotone {Interval : Type} `{Lib Interval}
    (df_required : list Prepare.Classified) (target : string)
    (narrow wide : Interval) (k : Z) :
  (∀ v, interval_contains v narrow = true → interval_contains v wide = true) →
  Prepare.highest_accepted (Prepare.target_releases df_required target) narrow = Some k →
  ∃ k',
    Prepare.highest_accepted (Prepare.target_releases df_required target) wide = Some k' ∧
    k ≤ k'.
Proof.
  intros Hsub Hk.
  apply SelectionFacts.highest_accepted_Some in Hk as (r & Hr & Hrank & Hacc & _);
    [|apply SelectionFacts.target_releases_sorted].
  apply Hsub in Hacc.
  destruct (Prepare.highest_accepted (Prepare.target_releases df_required target) wide)
    as [k'|] eqn:Hk'.
  - exists k'. split; [done|].
    apply SelectionFacts.highest_accepted_Some in Hk' as (_ & _ & _ & _ & Hmax);
      [|apply SelectionFacts.target_releases_sorted].
    rewrite <- Hrank. by apply Hmax.
  - rewrite SelectionFacts.highest_accepted_None in Hk'.
    rewrite (Hk' r Hr) in Hacc. done.
Qed.

Lemma selection_monotone_witness :
  ∃ k',
    Prepare.highest_accepted
      (Prepare.target_releases (Prepare.required_of Fixtures.four_releases) "pkg")
      (SpecInterval.widen_upper Fixtures.narrow) = Some k' ∧
    3 ≤ k'.
Proof.
  apply (selection_monotone (Prepare.required_of Fixtures.four_releases) "pkg"
           Fixtures.narrow (SpecInterval.widen_upper Fixtures.narrow) 3).
  - intros v Hv. exact (SpecIntervalFacts.widen_upper_contains v Fixtures.narrow Hv).
  - vm_compute. reflexivity.
Defined.

(** * Further properties of the classification *)

(** X1. When a package's releases come out in an order in which the major
    never decreases, no release is flagged and none carries an
    attribution. *)
Theorem no_backport_in_version_order (g : list Release) c :
  NoDup (rank <$> g) →
  (∀ a b, a ∈ g → b ∈ g → chron_le a b → major a ≤ major b) →
  c ∈ Prepare.classify_group g →
  Prepare.backported c = false ∧ Prepare.backported_from c = None.
Proof.
  intros Hnd Hmono Hc.
  assert (Prepare.backported c = false) as Hflag.
  { apply list_elem_of_lookup in Hc as [i Hi].
    apply not_true_is_false. intros Hb.
    apply (PrepareFacts.classify_group_backported g Hnd i c Hi) in Hb
      as (m & [Hin _]%max_of_spec & Hlt).
    apply list_elem_of_fmap in Hin as (r & -> & Hr).
    apply elem_of_take in Hr as (j & Hj & Hji).
    assert (chron_le r (Prepare.c_rel c)) as Hle.
    { eapply (StronglySorted_lookup chron_le _ j i);
        [by apply PrepareFacts.classify_group_sorted|done| |done].
      by rewrite list_lookup_fmap, Hi. }
    assert (major r ≤ major (Prepare.c_rel c)); [|lia].
    apply Hmono; [| |done];
      rewrite <- (PrepareFacts.classify_group_Permutation g Hnd).
    - by eapply list_elem_of_lookup_2.
    - apply list_elem_of_fmap_2, list_elem_of_lookup. eauto. }
  split; [done|]. by eapply PrepareFacts.attribute_unflagged.
Qed.

Lemma no_backport_in_version_order_witness :
  Prepare.backported_from
    (Prepare.mkClassified (Fixtures.release "1.9.0" 1 9 0 3 20 3) Prepare.Minor false None)
  = None.
Proof.
  apply (no_backport_in_version_order Fixtures.four_releases).
  - compute_done.
  - intros a b Ha Hb.
    vm_compute in Ha, Hb.
    repeat (apply elem_of_cons in Ha as [->|Ha]);
      try (by apply elem_of_nil in Ha);
      repeat (apply elem_of_cons in Hb as [->|Hb]);
      try (by apply elem_of_nil in Hb);
      unfold chron_le, pair_le; simpl; lia.
  - compute_done.
Defined.

(** X2. An attribution is only ever given to a flagged release, it is the
    rank of a release of the same package, and when ranks follow the
    majors it is higher than the release's own rank. *)
Theorem backported_from_is_a_later_line (g : list Release) c k :
  NoDup (rank <$> g) →
  c ∈ Prepare.classify_group g →
  Prepare.backported_from c = Some k →
  Prepare.backported c = true ∧
  (∃ r, r ∈ g ∧ rank r = k) ∧
  ((∀ a b, a ∈ g → b ∈ g → major a < major b → rank a < rank b) →
   rank (Prepare.c_rel c) < k).
Proof.
  intros Hnd Hc Hk.
  assert (Prepare.backported c = true) as Hb.
  { destruct (Prepare.backported c) eqn:Hb; [done|].
    rewrite (PrepareFacts.attribute_unflagged _ c Hc Hb) in Hk. done. }
  split; [done|].
  apply list_elem_of_lookup in Hc as [i Hi].
  destruct (PrepareFacts.classify_group_from g Hnd i c Hi Hb)
    as (R & p & Hmax & Hp & HR & _ & Hfrom).
  rewrite Hfrom in Hk. clear Hfrom. subst R.
  assert ((k = rank p ∨ k = rank p + 1) ∧ ∃ r, r ∈ g ∧ rank r = k) as [HkR Hex].
  { case_decide.
    - simplify_eq. split; [by left|]. by exists p.
    - destruct (Prepare.release_of_rank g (rank p + 1)) as [n|] eqn:Hn; [|done].
      simpl in Hk. simplify_eq.
      apply PrepareFacts.release_of_rank_Some in Hn as [Hn Hrank].
      split; [by right|]. by exists n. }
  split; [done|]. intros Hcons.
  assert (rank (Prepare.c_rel c) < rank p); [|lia].
  apply (PrepareFacts.classify_group_backported g Hnd i c Hi) in Hb
    as (m & [Hin _]%max_of_spec & Hlt).
  apply list_elem_of_fmap in Hin as (r & -> & Hr).
  apply elem_of_take in Hr as (j & Hj & Hji).
  apply max_of_spec in Hmax as [_ Hub].
  assert (rank r ≤ rank p) as Hle.
  { apply Hub, list_elem_of_fmap_2, elem_of_take. exists j. split; [done|lia]. }
  assert (rank (Prepare.c_rel c) < rank r); [|lia].
  apply Hcons; [| |done]; rewrite <- (PrepareFacts.classify_group_Permutation g Hnd).
  - apply list_elem_of_fmap_2, list_elem_of_lookup. eauto.
  - by eapply list_elem_of_lookup_2.
Qed.

Lemma backported_from_is_a_later_line_witness : 2 < 3.
Proof.
  destruct (backported_from_is_a_later_line Fixtures.history
              (Prepare.mkClassified (Fixtures.release "1.1.0" 1 1 0 2 20 3)
                 Prepare.Minor true (Some 3)) 3)
    as (_ & _ & Hlater); [compute_done|compute_done|reflexivity|].
  apply Hlater. intros a b Ha Hb.
  vm_compute in Ha, Hb.
  repeat (apply elem_of_cons in Ha as [->|Ha]);
    try (by apply elem_of_nil in Ha);
    repeat (apply elem_of_cons in Hb as [->|Hb]);
    try (by apply elem_of_nil in Hb);
    simpl; lia.
Defined.

(** * Further properties of the constraint dictionary and the selection *)

Lemma mapM_Raise_inv {A B} (f : A → Outcome B) (l : list A) e :
  mapM f l = Raise e → ∃ x, x ∈ l ∧ f x = Raise e.
Proof.
  induction l as [|x l IH]; simpl; [done|].
  destruct (f x) as [y|e'] eqn:Hx; simpl.
  - destruct (mapM f l) as [k|e'] eqn:Hl; simpl; [done|].
    intros Heq. inversion Heq; subst.
    destruct (IH eq_refl) as (x' & ? & ?). exists x'.
    split; [apply elem_of_cons; by right|done].
  - intros Heq. inversion Heq; subst. exists x.
    split; [apply elem_of_cons; by left|done].
Qed.

Lemma mapM_Return_elem {A B} (f : A → Outcome B) (l : list A) k x :
  mapM f l = Return k → x ∈ l → ∃ y, f x = Return y.
Proof.
  rewrite mapM_Return. intros HF Hx.
  apply list_elem_of_lookup in Hx as [i Hi].
  destruct (Forall2_lookup_l _ _ _ _ _ HF Hi) as (y & _ & Hy). eauto.
Qed.

(** X3. The dictionary of a run has exactly the constraints of the
    dependents as keys: a constraint of some dependency is bound to the
    descriptors of its parsed interval, any other string is unbound. *)
Theorem constraint_intervals_keys {Interval : Type} `{Lib Interval}
    (parser : Prepare.Parser Interval) (df_dependents : list Prepare.Dependent) :
  ∃ intervals,
    Prepare.constraint_intervals parser df_dependents = Return intervals ∧
    ∀ key,
      (key ∈ Prepare.constraint <$> df_dependents →
         ∃ interval, Prepare.parse_or_empty parser key = Return interval ∧
                     intervals !! key = Some (Prepare.describe interval)) ∧
      (key ∉ Prepare.constraint <$> df_dependents →
         intervals !! key = None ∧
         Prepare.lookup_interval intervals key = Raise (KeyError key)).
Proof.
  unfold Prepare.constraint_intervals.
  destruct (SelectionFacts.convert_constraints_spec parser
              (drop_duplicates (Prepare.constraint <$> df_dependents)) ∅)
    as (intervals & Hret & Hspec).
  exists intervals. split; [done|]. intros key.
  destruct (Hspec key) as [Hout Hin]. split.
  - intros Hkey.
    destruct (SelectionFacts.parse_or_empty_returns parser key) as [interval Hi].
    exists interval. split; [done|]. apply Hin; [|done].
    by apply elem_of_drop_duplicates.
  - intros Hkey.
    assert (intervals !! key = None) as Hnone.
    { rewrite Hout; [by rewrite lookup_empty|]. by rewrite elem_of_drop_duplicates. }
    split; [done|]. unfold Prepare.lookup_interval. by rewrite Hnone.
Qed.

Lemma constraint_intervals_keys_witness :
  ∃ intervals,
    Prepare.constraint_intervals Fixtures.two_constraints Fixtures.edges = Return intervals ∧
    intervals !! "^1.0" = None ∧
    intervals !! ">=1.2.0" = Some (Prepare.describe Fixtures.wide).
Proof.
  destruct (constraint_intervals_keys Fixtures.two_constraints Fixtures.edges)
    as (intervals & Hret & Hkeys).
  exists intervals. split; [done|]. split.
  - apply (Hkeys "^1.0"). compute_done.
  - destruct (proj1 (Hkeys ">=1.2.0")) as (interval & Hi & Hd); [compute_done|].
    rewrite Hd. f_equal. f_equal.
    assert (Prepare.parse_or_empty Fixtures.two_constraints ">=1.2.0" = Return Fixtures.wide)
      as Hwide by reflexivity.
    rewrite Hwide in Hi. by injection Hi.
Defined.

(** X4. The selection loops return exactly when every constraint of the
    dependents is a key of the dictionary; otherwise they raise the
    [KeyError] of a constraint of the dependents that is not a key. *)
Theorem identify_selected_key_error {Interval : Type} `{Lib Interval}
    (df_required : list Prepare.Classified)
    (intervals : gmap string (Prepare.Descr Interval))
    (df_dependents : list Prepare.Dependent) :
  ((∀ e, e ∈ df_dependents → is_Some (intervals !! Prepare.constraint e)) →
   ∃ out, Prepare.identify_selected df_required intervals df_dependents = Return out ∧
          Prepare.edge <$> out ≡ₚ df_dependents) ∧
  (∀ e, e ∈ df_dependents → intervals !! Prepare.constraint e = None →
   ∃ key, Prepare.identify_selected df_required intervals df_dependents
            = Raise (KeyError key) ∧
          intervals !! key = None ∧
          key ∈ Prepare.constraint <$> df_dependents).
Proof.
  split.
  - intros Hknown. eexists. split.
    + by apply SelectionFacts.identify_selected_returns.
    + by apply SelectionFacts.identify_selected_edges.
  - intros e He Hnone. unfold Prepare.identify_selected.
    destruct (mapM (Prepare.select_target df_required intervals)
                (groupby Prepare.target df_dependents)) as [data|err] eqn:Hdata.
    + exfalso.
      assert ((Prepare.target e, filter (λ a, Prepare.target a = Prepare.target e) df_dependents)
              ∈ groupby Prepare.target df_dependents) as Htg.
      { apply elem_of_groupby. split; [by apply list_elem_of_fmap_2|done]. }
      destruct (mapM_Return_elem _ _ _ _ Hdata Htg) as [frames Hframes].
      unfold Prepare.select_target in Hframes. simpl in Hframes.
      set (group := filter (λ a, Prepare.target a = Prepare.target e) df_dependents) in *.
      assert (e ∈ group) as Heg by (by apply list_elem_of_filter).
      assert ((Prepare.constraint e,
               filter (λ a, Prepare.constraint a = Prepare.constraint e) group)
              ∈ groupby Prepare.constraint group) as Hcg.
      { apply elem_of_groupby. split; [by apply list_elem_of_fmap_2|done]. }
      destruct (mapM_Return_elem _ _ _ _ Hframes Hcg) as [frame Hframe].
      unfold Prepare.select_constraint, Prepare.lookup_interval in Hframe.
      simpl in Hframe. by rewrite Hnone in Hframe.
    + simpl.
      apply mapM_Raise_inv in Hdata as ([t group] & Htg & Hraise).
      unfold Prepare.select_target in Hraise. simpl in Hraise.
      apply mapM_Raise_inv in Hraise as ([c cgroup] & Hcg & Hraise).
      unfold Prepare.select_constraint, Prepare.lookup_interval in Hraise.
      simpl in Hraise.
      destruct (intervals !! c) as [d|] eqn:Hc; [done|].
      simpl in Hraise. inversion Hraise; subst.
      exists c. split_and!; [done..|].
      apply elem_of_groupby in Htg as [_ ->].
      apply elem_of_groupby in Hcg as [Hcin _].
      apply list_elem_of_fmap in Hcin as (e' & -> & He').
      apply list_elem_of_filter in He' as [_ He'].
      by apply list_elem_of_fmap_2.
Qed.

Lemma identify_selected_key_error_witness :
  ∃ key,
    Prepare.identify_selected (Interval := SpecInterval.Interval)
      (Prepare.required_of Fixtures.four_releases) ∅ Fixtures.edges
      = Raise (KeyError key) ∧
    key ∈ Prepare.constraint <$> Fixtures.edges.
Proof.
  destruct (proj2 (identify_selected_key_error (Interval := SpecInterval.Interval)
                     (Prepare.required_of Fixtures.four_releases) ∅ Fixtures.edges)
              (Prepare.mkDependent "cli" "1.0.0" 1 "pkg" "latest"))
    as (key & Hraise & _ & Hkey); [compute_done|reflexivity|].
  by exists key.
Defined.



(** * The order of strings *)

Lemma ascii_compare_refl a : Ascii.compare a a = Eq.
Proof. apply N.compare_refl. Qed.

Lemma ascii_compare_lt_trans a b c :
  Ascii.compare a b = Lt → Ascii.compare b c = Lt → Ascii.compare a c = Lt.
Proof. unfold Ascii.compare. rewrite !N.compare_lt_iff. lia. Qed.

Lemma string_compare_refl s : String.compare s s = Eq.
Proof. induction s as [|a s IH]; simpl; [done|]. by rewrite ascii_compare_refl. Qed.

Lemma str_lt_irrefl s : ¬ str_lt s s.
Proof. unfold str_lt. by rewrite string_compare_refl. Qed.

Lemma str_lt_trans a b c : str_lt a b → str_lt b c → str_lt a c.
Proof.
  unfold str_lt. revert b c.
  induction a as [|x a IH]; intros [|y b] [|z c]; simpl; try done.
  destruct (Ascii.compare x y) eqn:Hxy; [|clear IH|done].
  - apply Ascii.compare_eq_iff in Hxy as ->.
    destruct (Ascii.compare y z); [apply IH|done..].
  - destruct (Ascii.compare y z) eqn:Hyz; [| |done].
    + apply Ascii.compare_eq_iff in Hyz as ->. by rewrite Hxy.
    + by rewrite (ascii_compare_lt_trans x y z).
Qed.

Lemma str_lt_total a b : str_lt a b ∨ a = b ∨ str_lt b a.
Proof.
  unfold str_lt. rewrite (String.compare_antisym b a).
  destruct (String.compare a b) eqn:Hab; simpl; auto.
  right; left. by apply String.compare_eq_iff.
Qed.

Global Instance package_date_le_trans : Transitive ConvertAll.package_date_le.
Proof.
  intros a b c. unfold ConvertAll.package_date_le.
  intros [Hab|[Hab ?]] [Hbc|[Hbc ?]].
  - left. by eapply str_lt_trans.
  - left. by rewrite <- Hbc.
  - left. by rewrite Hab.
  - right. split; [congruence|lia].
Qed.

Global Instance package_date_le_total : Total ConvertAll.package_date_le.
Proof.
  intros a b. unfold ConvertAll.package_date_le.
  destruct (str_lt_total (Convert.r_package (ConvertAll.c_row a))
              (Convert.r_package (ConvertAll.c_row b))) as [?|[Heq|?]]; auto.
  rewrite Heq.
  destruct (Z.le_ge_cases (Convert.r_date (ConvertAll.c_row a))
              (Convert.r_date (ConvertAll.c_row b))); auto with lia.
Qed.

Global Instance package_rank_le_total : Total ConvertAll.package_rank_le.
Proof.
  intros a b. unfold ConvertAll.package_rank_le.
  destruct (str_lt_total (package a) (package b)) as [?|[Heq|?]]; auto.
  rewrite Heq. destruct (Z.le_ge_cases (rank a) (rank b)); auto with lia.
Qed.

Global Instance package_rank_le_trans : Transitive ConvertAll.package_rank_le.
Proof.
  intros a b c. unfold ConvertAll.package_rank_le.
  intros [Hab|[Hab ?]] [Hbc|[Hbc ?]].
  - left. by eapply str_lt_trans.
  - left. by rewrite <- Hbc.
  - left. by rewrite Hab.
  - right. split; [congruence|lia].
Qed.

(** * Dropping duplicates *)

Section drop_duplicates_last.
Context {A K : Type} `{EqDecision K} (key : A → K).
Implicit Types l : list A.

Lemma drop_duplicates_last_elem l x : x ∈ drop_duplicates_last key l → x ∈ l.
Proof.
  induction l as [|y l IH]; simpl; [done|].
  case_decide.
  - intros ?. apply elem_of_cons. right. by apply IH.
  - intros [->|?]%elem_of_cons; apply elem_of_cons; auto.
Qed.

Lemma drop_duplicates_last_keys l k :
  k ∈ key <$> drop_duplicates_last key l ↔ k ∈ key <$> l.
Proof.
  induction l as [|y l IH]; [done|]. cbn [drop_duplicates_last].
  case_decide as Hy.
  - rewrite IH, fmap_cons, elem_of_cons. split; [auto|].
    intros [->|?]; done.
  - by rewrite !fmap_cons, !elem_of_cons, IH.
Qed.

Lemma NoDup_drop_duplicates_last l : NoDup (key <$> drop_duplicates_last key l).
Proof.
  induction l as [|y l IH]; [constructor|]. cbn [drop_duplicates_last].
  case_decide as Hy; [done|].
  rewrite fmap_cons. constructor; [|done].
  by rewrite drop_duplicates_last_keys.
Qed.

(** In a sorted frame the row kept for a key is the greatest of the rows
    with that key. *)
Lemma drop_duplicates_last_greatest (R : relation A) `{!Reflexive R} l x y :
  StronglySorted R l →
  y ∈ drop_duplicates_last key l → x ∈ l → key x = key y → R x y.
Proof.
  induction 1 as [|z l Hs IH Hall]; simpl; [by intros []%elem_of_nil|].
  rewrite Forall_forall in Hall.
  case_decide as Hz.
  - intros Hy [->|Hx]%elem_of_cons Hk.
    + apply Hall. by eapply drop_duplicates_last_elem.
    + by apply IH.
  - intros [->|Hy]%elem_of_cons [->|Hx]%elem_of_cons Hk.
    + done.
    + destruct Hz. rewrite <- Hk. by apply list_elem_of_fmap_2.
    + apply Hall. by eapply drop_duplicates_last_elem.
    + by apply IH.
Qed.
End drop_duplicates_last.

(** * [convert.py]: cleaning the releases *)

Global Instance package_date_le_refl : Reflexive ConvertAll.package_date_le.
Proof. intros a. right. split; [done|lia]. Qed.

Section remove_duplicates.
Variable df : list ConvertAll.Compliant.

Local Abbreviation sorted :=
  (merge_sort ConvertAll.package_date_le (filter (λ c, ConvertAll.c_misc c = None) df)).

Lemma stable_sorted_elem c : c ∈ sorted ↔ c ∈ df ∧ ConvertAll.c_misc c = None.
Proof. rewrite merge_sort_Permutation, list_elem_of_filter. tauto. Qed.

Lemma remove_duplicates_NoDup :
  NoDup ((λ r, (Convert.r_package r, Convert.r_triple r)) <$>
         ConvertAll.remove_prereleases_and_duplicates df).
Proof.
  unfold ConvertAll.remove_prereleases_and_duplicates.
  rewrite <- list_fmap_compose. apply (NoDup_drop_duplicates_last ConvertAll.version_key).
Qed.

Lemma remove_duplicates_origin r :
  r ∈ ConvertAll.remove_prereleases_and_duplicates df →
  ConvertAll.mkCompliant r None ∈ df.
Proof.
  intros (c & -> & Hc)%list_elem_of_fmap.
  apply drop_duplicates_last_elem, stable_sorted_elem in Hc as [Hc Hmisc].
  destruct c as [row misc]. simpl in *. by subst.
Qed.

Lemma remove_duplicates_latest c :
  c ∈ df → ConvertAll.c_misc c = None →
  ∃ r, r ∈ ConvertAll.remove_prereleases_and_duplicates df ∧
       Convert.r_package r = Convert.r_package (ConvertAll.c_row c) ∧
       Convert.r_triple r = Convert.r_triple (ConvertAll.c_row c) ∧
       Convert.r_date (ConvertAll.c_row c) ≤ Convert.r_date r.
Proof.
  intros Hc Hmisc.
  assert (c ∈ sorted) as Hin by (by apply stable_sorted_elem).
  assert (ConvertAll.version_key c ∈
          ConvertAll.version_key <$> drop_duplicates_last ConvertAll.version_key sorted)
    as Hkey by (by apply drop_duplicates_last_keys, list_elem_of_fmap_2).
  apply list_elem_of_fmap in Hkey as (y & Hk & Hy).
  exists (ConvertAll.c_row y). split; [by apply list_elem_of_fmap_2|].
  pose proof (f_equal fst Hk) as Hp. pose proof (f_equal snd Hk) as Ht.
  unfold ConvertAll.version_key in Hp, Ht. simpl in Hp, Ht.
  split_and!; [done..|].
  assert (ConvertAll.package_date_le c y) as [Hlt|[_ Hle]]; [|..|done].
  - apply (drop_duplicates_last_greatest ConvertAll.version_key _ sorted); [|done..].
    apply StronglySorted_merge_sort; apply _.
  - rewrite Hp in Hlt. by apply str_lt_irrefl in Hlt.
Qed.
End remove_duplicates.

(** X6. After the removal of prereleases and duplicates every version of
    every package occurs once, no row stems from a prerelease, and the row
    kept for a version carries the latest date under which that version was
    published as a stable release. *)
Theorem one_row_per_version (df : list ConvertAll.Compliant) :
  let out := ConvertAll.remove_prereleases_and_duplicates df in
  NoDup ((λ r, (Convert.r_package r, Convert.r_triple r)) <$> out) ∧
  (∀ r, r ∈ out → ConvertAll.mkCompliant r None ∈ df) ∧
  (∀ c, c ∈ df → ConvertAll.c_misc c = None →
     ∃ r, r ∈ out ∧
          Convert.r_package r = Convert.r_package (ConvertAll.c_row c) ∧
          Convert.r_triple r = Convert.r_triple (ConvertAll.c_row c) ∧
          Convert.r_date (ConvertAll.c_row c) ≤ Convert.r_date r).
Proof.
  intros out. split_and!.
  - apply remove_duplicates_NoDup.
  - intros r Hr. by apply remove_duplicates_origin.
  - intros c Hc Hmisc. by apply remove_duplicates_latest.
Qed.

Lemma one_row_per_version_witness :
  let old := ConvertAll.mkCompliant (Convert.mkRow "pkg" "1.0.0" 1 0 0 5) None in
  let new := ConvertAll.mkCompliant (Convert.mkRow "pkg" "v1.0.0" 1 0 0 9) None in
  let beta := ConvertAll.mkCompliant (Convert.mkRow "pkg" "1.0.0-beta" 1 0 0 12) (Some "-beta") in
  ∃ r, r ∈ ConvertAll.remove_prereleases_and_duplicates [new; beta; old] ∧
       5 ≤ Convert.r_date r.
Proof.
  intros old new beta.
  destruct (one_row_per_version [new; beta; old]) as (_ & _ & Hlatest).
  destruct (Hlatest old) as (r & Hr & _ & _ & Hdate); [compute_done|reflexivity|].
  by exists r.
Defined.

(** * Frames built group by group *)

Lemma filter_all {A} (P : A → Prop) `{∀ x, Decision (P x)} (l : list A) :
  (∀ x, x ∈ l → P x) → filter P l = l.
Proof.
  induction l as [|x l IH]; intros Hall; [done|].
  rewrite filter_cons_True by (apply Hall, elem_of_cons; by left).
  f_equal. apply IH. intros y ?. apply Hall, elem_of_cons. by right.
Qed.

Lemma filter_none {A} (P : A → Prop) `{∀ x, Decision (P x)} (l : list A) :
  (∀ x, x ∈ l → ¬ P x) → filter P l = [].
Proof.
  induction l as [|x l IH]; intros Hall; [done|].
  rewrite filter_cons_False by (apply Hall, elem_of_cons; by left).
  apply IH. intros y ?. apply Hall, elem_of_cons. by right.
Qed.

Section groups.
Context {A B K : Type} `{EqDecision K}.
Context (key : A → K) (keyB : B → K) (F : list A → list B).
Hypothesis F_keys : ∀ g b, b ∈ F g → ∃ a, a ∈ g ∧ key a = keyB b.

Lemma filter_groups_of (df : list A) (ks : list K) p :
  NoDup ks →
  filter (λ b, keyB b = p) (mjoin ((λ k, F (filter (λ a, key a = k) df)) <$> ks)) =
  if decide (p ∈ ks) then F (filter (λ a, key a = p) df) else [].
Proof.
  induction 1 as [|k ks Hk Hnd IH]; [done|].
  rewrite fmap_cons, join_cons, filter_app, IH.
  destruct (decide (k = p)) as [->|Hne].
  - destruct (decide (p ∈ ks)) as [?|_]; [done|].
    destruct (decide (p ∈ p :: ks)) as [_|Hn];
      [|destruct Hn; apply elem_of_cons; by left].
    rewrite app_nil_r.
    apply filter_all. intros b (a & [Ha _]%list_elem_of_filter & <-)%F_keys. done.
  - rewrite (filter_none (λ b, keyB b = p)).
    + simpl. destruct (decide (p ∈ ks)) as [Hin|Hnin];
        destruct (decide (p ∈ k :: ks)) as [Hin'|Hnin']; try done.
      * destruct Hnin'. apply elem_of_cons. by right.
      * apply elem_of_cons in Hin' as [?|?]; congruence.
    + intros b (a & [Ha _]%list_elem_of_filter & <-)%F_keys. congruence.
Qed.

(** The rows of one key in a frame assembled from the groups of another
    are the rows computed from that key's group. *)
Lemma filter_groups (df : list A) p :
  filter (λ b, keyB b = p) (mjoin ((λ g : K * list A, F g.2) <$> groupby key df)) =
  if decide (p ∈ key <$> df) then F (filter (λ a, key a = p) df) else [].
Proof.
  unfold groupby. rewrite <- list_fmap_compose.
  rewrite (filter_groups_of df _ p (NoDup_drop_duplicates _)).
  destruct (decide (p ∈ key <$> df)) as [Hin|Hnin].
  - rewrite decide_True; [done|]. by apply elem_of_drop_duplicates.
  - rewrite decide_False; [done|]. by rewrite elem_of_drop_duplicates.
Qed.
End groups.

(** * [convert.py]: ordering the releases *)

Lemma rank_group_rows (g : list Convert.Row) r :
  r ∈ Convert.rank_group g → Convert.unranked r ∈ g.
Proof.
  intros Hr. rewrite <- (ConvertFacts.rank_group_unranked g).
  by apply list_elem_of_fmap_2.
Qed.

Lemma rank_group_package (g : list Convert.Row) r :
  r ∈ Convert.rank_group g → ∃ a, a ∈ g ∧ Convert.r_package a = package r.
Proof. intros Hr. exists (Convert.unranked r). split; [by apply rank_group_rows|done]. Qed.

Local Abbreviation ordered df :=
  (merge_sort ConvertAll.package_rank_le (mjoin (ConvertAll.rank_groups df))).

Lemma order_releases_Some (df : list Convert.Row) out :
  ConvertAll.order_releases df = Some out ↔ df ≠ [] ∧ out = ordered df.
Proof.
  unfold ConvertAll.order_releases, ConvertAll.rank_groups, groupby, drop_duplicates.
  destruct df as [|x df]; simpl.
  - split; [done|]. by intros [[] _].
  - split; [intros ?; simplify_eq; done|intros [_ ->]; done].
Qed.

Lemma order_releases_None (df : list Convert.Row) :
  ConvertAll.order_releases df = None ↔ df = [].
Proof.
  unfold ConvertAll.order_releases, ConvertAll.rank_groups, groupby, drop_duplicates.
  by destruct df as [|x df].
Qed.

Lemma order_releases_package (df : list Convert.Row) p :
  filter (λ r, package r = p) (ordered df) ≡ₚ
  if decide (p ∈ Convert.r_package <$> df)
  then Convert.rank_group (filter (λ a, Convert.r_package a = p) df)
  else [].
Proof.
  unfold ConvertAll.rank_groups. rewrite merge_sort_Permutation.
  by rewrite (filter_groups Convert.r_package package Convert.rank_group rank_group_package).
Qed.

Lemma order_releases_unranked (df : list Convert.Row) :
  Convert.unranked <$> ordered df ≡ₚ df.
Proof.
  unfold ConvertAll.rank_groups. rewrite merge_sort_Permutation.
  rewrite <- (groupby_Permutation Convert.r_package df) at 2.
  induction (groupby Convert.r_package df) as [|g gs IH]; [done|].
  rewrite !fmap_cons, !join_cons, fmap_app, IH.
  by rewrite ConvertFacts.rank_group_unranked.
Qed.

Lemma order_releases_elem (df : list Convert.Row) r :
  r ∈ ordered df →
  r ∈ Convert.rank_group (filter (λ a, Convert.r_package a = package r) df).
Proof.
  intros Hr.
  assert (r ∈ filter (λ r', package r' = package r) (ordered df)) as Hin
    by (by apply list_elem_of_filter).
  rewrite order_releases_package in Hin.
  case_decide; [done|]. by apply elem_of_nil in Hin.
Qed.

Lemma rank_group_rank_dates_unique (g : list Convert.Row) :
  NoDup (rank_date <$> Convert.rank_group g).
Proof.
  rewrite ConvertFacts.rank_group_rank_date.
  apply NoDup_fmap_2; [apply _|]. apply NoDup_seq.
Qed.

Lemma rank_group_NoDup (g : list Convert.Row) : NoDup (Convert.rank_group g).
Proof. eapply NoDup_fmap_1, rank_group_ranks_unique. Qed.

(** Within a group of distinct versions the rank order is the strict
    version order, and the date rank order is the strict (date, rank)
    order. *)
Lemma rank_group_strict (g : list Convert.Row) a b :
  NoDup (Convert.r_triple <$> g) →
  a ∈ Convert.rank_group g → b ∈ Convert.rank_group g →
  (rank a < rank b ↔ triple_lt (triple a) (triple b)) ∧
  (rank_date a < rank_date b ↔
   date a < date b ∨ (date a = date b ∧ rank a < rank b)).
Proof.
  intros Hnd Ha Hb.
  assert (rank a = rank b → a = b) as Hrank.
  { intros. by apply (NoDup_fmap_eq rank (Convert.rank_group g) a b
                        (rank_group_ranks_unique g)). }
  assert (rank_date a = rank_date b → a = b) as Hrd.
  { intros. by apply (NoDup_fmap_eq rank_date (Convert.rank_group g) a b
                        (rank_group_rank_dates_unique g)). }
  split; split.
  - intros Hlt. apply triple_lt_le. split.
    + by apply (ConvertFacts.rank_group_version_order g).
    + intros Heq.
      assert (Convert.unranked a = Convert.unranked b) as Hu.
      { eapply (NoDup_fmap_eq Convert.r_triple g); [done|by apply rank_group_rows..|done]. }
      assert (a = b); [|subst; lia].
      eapply (NoDup_fmap_eq Convert.unranked (Convert.rank_group g)); [|done..].
      rewrite ConvertFacts.rank_group_unranked. by eapply NoDup_fmap_1.
  - intros [Hle Hne]%triple_lt_le.
    destruct (Z.lt_trichotomy (rank a) (rank b)) as [?|[Heq|Hgt]]; [done|..].
    + destruct Hne. by rewrite (Hrank Heq).
    + destruct Hne. apply triple_le_antisym; [done|].
      by apply (ConvertFacts.rank_group_version_order g).
  - intros Hlt.
    destruct (ConvertFacts.rank_group_date_order g a b Ha Hb Hlt) as [?|[? Hle]];
      [by left|right].
    split; [done|].
    destruct (decide (rank a = rank b)) as [Heq|?]; [|simpl in *; lia].
    rewrite (Hrank Heq) in Hlt. lia.
  - intros Hchron.
    destruct (Z.lt_trichotomy (rank_date a) (rank_date b)) as [?|[Heq|Hgt]]; [done|..].
    + rewrite (Hrd Heq) in Hchron. lia.
    + destruct (ConvertFacts.rank_group_date_order g b a Hb Ha Hgt) as [?|[? ?]];
        simpl in *; lia.
Qed.

Section clean.
Variable version_re : string → option Z * option Z * option Z * option string.
Variable ghost : string → bool.

Lemma remove_spam_elem (df : list ConvertAll.Raw) x :
  x ∈ ConvertAll.remove_spam ghost df ↔
  x ∈ df ∧
  startswith ConvertAll.exclude_prefixes (ConvertAll.raw_package x) = false ∧
  endswith ConvertAll.exclude_suffixes (ConvertAll.raw_package x) = false ∧
  ghost (ConvertAll.raw_package x) = false.
Proof.
  unfold ConvertAll.remove_spam. rewrite !list_elem_of_filter. tauto.
Qed.

Lemma compliant_Some x c :
  ConvertAll.compliant (ConvertAll.extract version_re x) = Some c ↔
  ∃ maj mnr pat,
    version_re (ConvertAll.raw_version x) = (Some maj, Some mnr, Some pat, ConvertAll.c_misc c) ∧
    ConvertAll.c_row c =
      Convert.mkRow (ConvertAll.raw_package x) (ConvertAll.raw_version x) maj mnr pat
        (ConvertAll.raw_date x).
Proof.
  unfold ConvertAll.compliant, ConvertAll.extract.
  destruct (version_re (ConvertAll.raw_version x)) as [[[maj mnr] pat] misc].
  destruct maj as [maj|], mnr as [mnr|], pat as [pat|]; simpl;
    (split; [intros ?; simplify_eq; eauto|intros (?&?&?&?&?); simplify_eq]).
  destruct c as [row misc']. simpl in *. by subst.
Qed.
End clean.

(** * [convert.py]: the releases written *)

Section convert_releases.
Variable version_re : string → option Z * option Z * option Z * option string.
Variable ghost : string → bool.
Variables (ecosystem : string) (df_releases : list ConvertAll.Raw).

Local Abbreviation clean := (ConvertAll.clean_releases version_re ghost ecosystem df_releases).

Lemma clean_releases_origin r :
  r ∈ clean →
  ∃ x, x ∈ df_releases ∧
    (ecosystem = "NPM" →
       startswith ConvertAll.exclude_prefixes (ConvertAll.raw_package x) = false ∧
       endswith ConvertAll.exclude_suffixes (ConvertAll.raw_package x) = false ∧
       ghost (ConvertAll.raw_package x) = false) ∧
    version_re (ConvertAll.raw_version x) =
      (Some (Convert.r_major r), Some (Convert.r_minor r), Some (Convert.r_patch r), None) ∧
    r = Convert.mkRow (ConvertAll.raw_package x) (ConvertAll.raw_version x)
          (Convert.r_major r) (Convert.r_minor r) (Convert.r_patch r)
          (ConvertAll.raw_date x).
Proof.
  intros Hr. apply remove_duplicates_origin in Hr.
  apply list_elem_of_omap in Hr as (e & He & Hc).
  apply list_elem_of_fmap in He as (x & -> & Hx).
  apply compliant_Some in Hc as (maj & mnr & pat & Hre & Hrow). simpl in *.
  exists x. subst r. simpl. split_and!; [|..|done|done].
  - case_decide; [|done]. by apply remove_spam_elem in Hx as [? _].
  - intros Heco. rewrite decide_True in Hx by done.
    apply remove_spam_elem in Hx. tauto.
Qed.

Lemma clean_releases_versions_unique :
  NoDup ((λ r, (Convert.r_package r, Convert.r_version r)) <$> clean).
Proof.
  pose proof (remove_duplicates_NoDup
                (omap (ConvertAll.compliant)
                   (ConvertAll.extract version_re <$>
                    (if decide (ecosystem = "NPM")
                     then ConvertAll.remove_spam ghost df_releases else df_releases))))
    as Hnd.
  apply NoDup_fmap_2_strong; [|by eapply NoDup_fmap_1].
  intros a b Ha Hb Heq.
  eapply (NoDup_fmap_eq _ _ a b Hnd); [done..|].
  pose proof (f_equal fst Heq) as Hp. pose proof (f_equal snd Heq) as Hv.
  simpl in Hp, Hv.
  destruct (clean_releases_origin a Ha) as (x & _ & _ & Hxa & Ea).
  destruct (clean_releases_origin b Hb) as (y & _ & _ & Hyb & Eb).
  assert (ConvertAll.raw_version x = ConvertAll.raw_version y) as Hxy.
  { rewrite Ea, Eb in Hv. done. }
  rewrite Hxy, Hyb in Hxa. unfold Convert.r_triple. clear Ea Eb.
  injection Hxa as Hmaj Hmnr Hpat. congruence.
Qed.
End convert_releases.



Lemma ordered_strict
    (version_re : string → option Z * option Z * option Z * option string)
    (ghost : string → bool) (ecosystem : string) (df_releases : list ConvertAll.Raw) a b :
  let out := ordered (ConvertAll.clean_releases version_re ghost ecosystem df_releases) in
  a ∈ out → b ∈ out → package a = package b →
  (rank a < rank b ↔ triple_lt (triple a) (triple b)) ∧
  (rank_date a < rank_date b ↔
   date a < date b ∨ (date a = date b ∧ rank a < rank b)).
Proof.
  intros out Ha Hb Hp.
  apply order_releases_elem in Ha, Hb. rewrite <- Hp in Hb.
  set (clean := ConvertAll.clean_releases version_re ghost ecosystem df_releases) in *.
  assert (NoDup ((λ r, (Convert.r_package r, Convert.r_triple r)) <$> clean)) as Hnd
    by apply remove_duplicates_NoDup.
  apply (rank_group_strict
           (filter (λ r, Convert.r_package r = package a) clean) a b); [|done..].
  apply NoDup_fmap_2_strong; [|apply NoDup_filter; by eapply NoDup_fmap_1].
  intros x y [Hx Hxin]%list_elem_of_filter [Hy Hyin]%list_elem_of_filter Ht.
  apply (NoDup_fmap_eq _ clean x y Hnd); [done..|].
  simpl. congruence.
Qed.

Lemma ordered_ranks_unique (df : list Convert.Row) p :
  NoDup (rank <$> filter (λ r, package r = p) (ordered df)).
Proof.
  rewrite order_releases_package. case_decide; [|constructor].
  apply rank_group_ranks_unique.
Qed.





(** * [convert.py]: the dependencies written *)

Section merge_inner_facts.
Context {A B C : Type} (on : A → B → Prop) `{∀ a b, Decision (on a b)}.
Context (joined : A → B → C).

Lemma elem_of_merge_inner c (left : list A) (right : list B) :
  c ∈ merge_inner on joined left right ↔
  ∃ a b, a ∈ left ∧ b ∈ right ∧ on a b ∧ c = joined a b.
Proof.
  unfold merge_inner. rewrite list_elem_of_bind. split.
  - intros (a & (b & -> & [??]%list_elem_of_filter)%list_elem_of_fmap & Ha).
    by exists a, b.
  - intros (a & b & Ha & Hb & Hab & ->). exists a. split; [|done].
    apply list_elem_of_fmap_2. by apply list_elem_of_filter.
Qed.

(** When no left row matches two right rows, the join keeps each matched
    left row once, in order. *)
Lemma merge_inner_undo (back : C → A) (left : list A) (right : list B) :
  (∀ a b, back (joined a b) = a) →
  (∀ a, a ∈ left → (length (filter (on a) right) ≤ 1)%nat) →
  back <$> merge_inner on joined left right = filter (λ a, Exists (on a) right) left.
Proof.
  intros Hback. unfold merge_inner.
  induction left as [|a left IH]; intros Hu; [done|].
  rewrite bind_cons, fmap_app, IH
    by (intros a' ?; apply Hu, elem_of_cons; by right).
  pose proof (Hu a (list_elem_of_here _ _)) as Ha.
  destruct (filter (on a) right) as [|b [|b' ms]] eqn:Hf; simpl in Ha; [| |lia].
  - rewrite filter_cons_False; [done|].
    rewrite Exists_exists. intros (b & Hb & Hab).
    by eapply (filter_nil_not_elem_of (on a)).
  - rewrite filter_cons_True.
    + simpl. by rewrite Hback.
    + rewrite Exists_exists. exists b.
      assert (b ∈ filter (on a) right) as Hb by (rewrite Hf; apply elem_of_cons; by left).
      apply list_elem_of_filter in Hb. tauto.
Qed.
End merge_inner_facts.



(** * From [convert.py] to [prepare.py] *)



(** * [prepare.py]: active packages, latest dependencies, required packages *)

Global Instance rank_date_le_trans : Transitive PrepareAll.rank_date_le.
Proof. intros a b c. unfold PrepareAll.rank_date_le. lia. Qed.
Global Instance rank_date_le_total : Total PrepareAll.rank_date_le.
Proof. intros a b. unfold PrepareAll.rank_date_le. lia. Qed.
Global Instance rank_date_le_refl : Reflexive PrepareAll.rank_date_le.
Proof. intros a. unfold PrepareAll.rank_date_le. lia. Qed.

Global Instance package_rank_date_le_trans : Transitive PrepareAll.package_rank_date_le.
Proof.
  intros a b c. unfold PrepareAll.package_rank_date_le.
  intros [Hab|[Hab ?]] [Hbc|[Hbc ?]].
  - left. by eapply str_lt_trans.
  - left. by rewrite <- Hbc.
  - left. by rewrite Hab.
  - right. split; [congruence|lia].
Qed.
Global Instance package_rank_date_le_total : Total PrepareAll.package_rank_date_le.
Proof.
  intros a b. unfold PrepareAll.package_rank_date_le.
  destruct (str_lt_total (package a) (package b)) as [?|[Heq|?]]; auto.
  rewrite Heq. destruct (Z.le_ge_cases (rank_date a) (rank_date b)); auto with lia.
Qed.
Global Instance package_rank_date_le_refl : Reflexive PrepareAll.package_rank_date_le.
Proof. intros a. right. split; [done|lia]. Qed.

Section drop_duplicates_on.
Context {A K : Type} `{EqDecision K} (key : A → K).
Implicit Types (l : list A) (seen : list K).

Lemma drop_duplicates_on_from_elem seen l x :
  x ∈ drop_duplicates_on_from key seen l → x ∈ l ∧ key x ∉ seen.
Proof.
  revert seen. induction l as [|y l IH]; intros seen; simpl; [by intros []%elem_of_nil|].
  case_decide as Hy.
  - intros [??]%IH. split; [apply elem_of_cons; by right|done].
  - intros [->|[? Hn]%IH]%elem_of_cons.
    + split; [apply elem_of_cons; by left|done].
    + split; [apply elem_of_cons; by right|].
      apply not_elem_of_cons in Hn. tauto.
Qed.

Lemma drop_duplicates_on_from_keys seen l k :
  k ∈ key <$> drop_duplicates_on_from key seen l ↔ k ∈ key <$> l ∧ k ∉ seen.
Proof.
  revert seen. induction l as [|y l IH]; intros seen; cbn [drop_duplicates_on_from].
  - rewrite fmap_nil, elem_of_nil. tauto.
  - case_decide as Hy.
    + rewrite IH, fmap_cons, elem_of_cons. split; [tauto|].
      intros [[->|?] ?]; tauto.
    + rewrite !fmap_cons, !elem_of_cons, IH, not_elem_of_cons. split.
      * intros [->|[? [??]]]; tauto.
      * intros [[->|?] ?]; [tauto|].
        destruct (decide (k = key y)); tauto.
Qed.

Lemma NoDup_drop_duplicates_on_from seen l :
  NoDup (key <$> drop_duplicates_on_from key seen l).
Proof.
  revert seen. induction l as [|y l IH]; intros seen; cbn [drop_duplicates_on_from];
    [constructor|].
  case_decide; [apply IH|].
  rewrite fmap_cons. constructor; [|apply IH].
  rewrite drop_duplicates_on_from_keys, not_elem_of_cons. tauto.
Qed.

Lemma drop_duplicates_on_elem l x : x ∈ drop_duplicates_on key l → x ∈ l.
Proof. by intros [? _]%drop_duplicates_on_from_elem. Qed.

Lemma drop_duplicates_on_keys l k :
  k ∈ key <$> drop_duplicates_on key l ↔ k ∈ key <$> l.
Proof.
  unfold drop_duplicates_on. rewrite drop_duplicates_on_from_keys, elem_of_nil. tauto.
Qed.

Lemma NoDup_drop_duplicates_on l : NoDup (key <$> drop_duplicates_on key l).
Proof. apply NoDup_drop_duplicates_on_from. Qed.
End drop_duplicates_on.

Lemma active_packages_last (df_releases : list Release) p :
  p ∈ PrepareAll.active_packages df_releases ↔
  ∃ r, r ∈ drop_duplicates_last package (merge_sort PrepareAll.rank_date_le df_releases) ∧
       package r = p ∧ PrepareAll.MIN_ACTIVE ≤ date r.
Proof.
  unfold PrepareAll.active_packages. rewrite list_elem_of_fmap. split.
  - intros (r & -> & [??]%list_elem_of_filter). eauto.
  - intros (r & ? & <- & ?). exists r. split; [done|]. by apply list_elem_of_filter.
Qed.

Lemma last_by_rank_date (df_releases : list Release) r r' :
  r ∈ drop_duplicates_last package (merge_sort PrepareAll.rank_date_le df_releases) →
  r' ∈ df_releases → package r' = package r → rank_date r' ≤ rank_date r.
Proof.
  intros Hr Hr' Hp.
  apply (drop_duplicates_last_greatest package PrepareAll.rank_date_le
           (merge_sort PrepareAll.rank_date_le df_releases)); [|done| |done].
  - apply StronglySorted_merge_sort; apply _.
  - by rewrite merge_sort_Permutation.
Qed.



Lemma last_releases_spec (df_releases : list Release) l :
  l ∈ PrepareAll.last_releases df_releases →
  l ∈ df_releases ∧
  ∀ r', r' ∈ df_releases → package r' = package l → rank_date r' ≤ rank_date l.
Proof.
  intros Hl. split.
  - apply drop_duplicates_last_elem in Hl. by rewrite merge_sort_Permutation in Hl.
  - intros r' Hr' Hp.
    assert (PrepareAll.package_rank_date_le r' l) as [Hlt|[_ ?]]; [| |done].
    + apply (drop_duplicates_last_greatest package PrepareAll.package_rank_date_le
               (merge_sort PrepareAll.package_rank_date_le df_releases)); [|done| |done].
      * apply StronglySorted_merge_sort; apply _.
      * by rewrite merge_sort_Permutation.
    + rewrite Hp in Hlt. by apply str_lt_irrefl in Hlt.
Qed.

Lemma last_releases_packages (df_releases : list Release) p :
  p ∈ package <$> PrepareAll.last_releases df_releases ↔ p ∈ package <$> df_releases.
Proof.
  unfold PrepareAll.last_releases.
  by rewrite drop_duplicates_last_keys, merge_sort_Permutation.
Qed.



(** X14. A package is required when at least five of the kept
    dependencies point to it.  After the restriction to required targets
    every target that is left has at least five dependencies, all of them
    kept and from pairwise different sources, and the dependencies of a
    required target are all left. *)
Theorem required_packages_spec (df_dependents : list Prepare.Dependent) :
  let required := PrepareAll.required_packages df_dependents in
  let final := filter (λ d, Prepare.target d ∈ required) df_dependents in
  (∀ t, t ∈ required ↔
        (PrepareAll.MIN_REQUIRED ≤ length (filter (λ d, Prepare.target d = t) df_dependents))%nat) ∧
  (∀ t, t ∈ required →
        filter (λ d, Prepare.target d = t) final =
        filter (λ d, Prepare.target d = t) df_dependents) ∧
  (NoDup ((λ d, (Prepare.source d, Prepare.target d)) <$> df_dependents) →
   ∀ d, d ∈ final →
     (PrepareAll.MIN_REQUIRED ≤ length (filter (λ d', Prepare.target d' = Prepare.target d) final))%nat ∧
     NoDup (Prepare.source <$> filter (λ d', Prepare.target d' = Prepare.target d) final)).
Proof.
  intros required final.
  assert (∀ t, t ∈ required ↔
     (PrepareAll.MIN_REQUIRED ≤
      length (filter (λ d, Prepare.target d = t) df_dependents))%nat) as Hreq.
  { intros t. unfold required, PrepareAll.required_packages.
    rewrite list_elem_of_fmap. split.
    - intros ([t' n] & -> & [Hn Hin]%list_elem_of_filter). simpl in *.
      apply list_elem_of_fmap in Hin as ([t'' group] & Heq & Hg).
      apply elem_of_groupby in Hg as [_ ->]. simpl in Heq. by simplify_eq.
    - intros Hn.
      exists (t, length (filter (λ d, Prepare.target d = t) df_dependents)).
      split; [done|]. apply list_elem_of_filter. split; [done|].
      apply list_elem_of_fmap.
      exists (t, filter (λ d, Prepare.target d = t) df_dependents). split; [done|].
      apply elem_of_groupby. split; [|done].
      destruct (filter (λ d, Prepare.target d = t) df_dependents) as [|d ds] eqn:Hf;
        [unfold PrepareAll.MIN_REQUIRED in Hn; simpl in Hn; lia|].
      assert (d ∈ filter (λ d, Prepare.target d = t) df_dependents) as Hd
        by (rewrite Hf; apply elem_of_cons; by left).
      apply list_elem_of_filter in Hd as [<- Hd]. by apply list_elem_of_fmap_2. }
  assert (∀ t, t ∈ required →
            filter (λ d, Prepare.target d = t) final =
            filter (λ d, Prepare.target d = t) df_dependents) as Hsame.
  { intros t Ht. unfold final. rewrite list_filter_filter.
    apply list_filter_iff. intros d. split; [tauto|]. intros <-. done. }
  split_and!; [done..|].
  intros Hnd d [Ht Hd]%list_elem_of_filter.
  rewrite (Hsame _ Ht). split; [by apply Hreq|].
  apply NoDup_fmap_2_strong; [|apply NoDup_filter; by eapply NoDup_fmap_1].
  intros x y [Hx Hxin]%list_elem_of_filter [Hy Hyin]%list_elem_of_filter Hs.
  apply (NoDup_fmap_eq _ df_dependents x y Hnd); [done..|].
  simpl. congruence.
Qed.

Lemma required_packages_spec_witness :
  let deps :=
    (λ s, Prepare.mkDependent s "1.0.0" 1 "pkg" "*") <$> ["a"; "b"; "c"; "d"; "e"] in
  "pkg" ∈ PrepareAll.required_packages deps ∧
  NoDup (Prepare.source <$> filter (λ d, Prepare.target d = "pkg")
           (filter (λ d, Prepare.target d ∈ PrepareAll.required_packages deps) deps)).
Proof.
  intros deps.
  destruct (required_packages_spec deps) as (Hreq & _ & Hfinal). split.
  - apply Hreq. vm_compute. lia.
  - apply (Hfinal ltac:(compute_done) (Prepare.mkDependent "a" "1.0.0" 1 "pkg" "*")).
    compute_done.
Defined.

(** * [prepare.py]: the whole run *)

Global Instance package_rank_leC_trans : Transitive PrepareAll.package_rank_leC.
Proof. intros a b c. unfold PrepareAll.package_rank_leC. apply package_rank_le_trans. Qed.
Global Instance package_rank_leC_total : Total PrepareAll.package_rank_leC.
Proof. intros a b. unfold PrepareAll.package_rank_leC. apply package_rank_le_total. Qed.

Lemma merge_left_nil {A B C} (on : A → B → Prop) `{∀ a b, Decision (on a b)}
    (joined : A → option B → C) (left : list A) (right : list B) :
  merge_left on joined left right = [] → left = [].
Proof.
  unfold merge_left. destruct left as [|a left]; [done|].
  rewrite bind_cons. intros [Hnil _]%app_eq_nil.
  by destruct (filter (on a) right).
Qed.

(** With or without distinct ranks, the rows of a classified group are
    rows of the group, and a group that is not empty yields rows. *)
Lemma classify_group_rel_elem (g : list Release) c :
  c ∈ Prepare.classify_group g → Prepare.c_rel c ∈ g.
Proof.
  unfold Prepare.classify_group, Prepare.attribute.
  intros (j & -> & Hj)%list_elem_of_fmap.
  apply elem_of_merge_left in Hj as (j1 & Hj1 & Hj).
  apply elem_of_merge_left in Hj1 as (f & Hf & Hj1).
  assert (Prepare.c_rel (Prepare.closest j) = Prepare.rel (Prepare.f_row f)) as ->.
  { destruct Hj as [[_ ->]|(b & _ & _ & ->)];
      destruct Hj1 as [[_ ->]|(b' & _ & _ & ->)]; done. }
  rewrite <- (PrepareFacts.assign_kind_Permutation g).
  rewrite <- (merge_sort_Permutation Prepare.chron_leK (Prepare.assign_kind g)).
  apply list_elem_of_fmap_2.
  rewrite <- (PrepareFacts.flag_backported_rows
                (merge_sort Prepare.chron_leK (Prepare.assign_kind g))).
  by apply list_elem_of_fmap_2.
Qed.

Lemma classify_group_nil (g : list Release) : Prepare.classify_group g = [] → g = [].
Proof.
  unfold Prepare.classify_group, Prepare.attribute.
  intros Hnil%fmap_nil_inv%merge_left_nil%merge_left_nil.
  pose proof (PrepareFacts.flag_backported_rows
                (merge_sort Prepare.chron_leK (Prepare.assign_kind g))) as Hrows.
  rewrite Hnil in Hrows. simpl in Hrows.
  assert (Prepare.assign_kind g = []) as Hk.
  { apply Permutation_nil_r. by rewrite <- (merge_sort_Permutation Prepare.chron_leK), <- Hrows. }
  apply Permutation_nil_r. by rewrite <- (PrepareFacts.assign_kind_Permutation g), Hk.
Qed.

Lemma required_packages_count (df_dependents : list Prepare.Dependent) t :
  t ∈ PrepareAll.required_packages df_dependents ↔
  (PrepareAll.MIN_REQUIRED ≤ length (filter (λ d, Prepare.target d = t) df_dependents))%nat.
Proof.
  unfold PrepareAll.required_packages. rewrite list_elem_of_fmap. split.
  - intros ([t' n] & -> & [Hn Hin]%list_elem_of_filter). simpl in *.
    apply list_elem_of_fmap in Hin as ([t'' group] & Heq & Hg).
    apply elem_of_groupby in Hg as [_ ->]. simpl in Heq. by simplify_eq.
  - intros Hn.
    exists (t, length (filter (λ d, Prepare.target d = t) df_dependents)).
    split; [done|]. apply list_elem_of_filter. split; [done|].
    apply list_elem_of_fmap.
    exists (t, filter (λ d, Prepare.target d = t) df_dependents). split; [done|].
    apply elem_of_groupby. split; [|done].
    destruct (filter (λ d, Prepare.target d = t) df_dependents) as [|d ds] eqn:Hf;
      [unfold PrepareAll.MIN_REQUIRED in Hn; simpl in Hn; lia|].
    assert (d ∈ filter (λ d, Prepare.target d = t) df_dependents) as Hd
      by (rewrite Hf; apply elem_of_cons; by left).
    apply list_elem_of_filter in Hd as [<- Hd]. by apply list_elem_of_fmap_2.
Qed.

Lemma required_packages_targets (df_dependents : list Prepare.Dependent) t :
  t ∈ PrepareAll.required_packages df_dependents →
  ∃ d, d ∈ df_dependents ∧ Prepare.target d = t.
Proof.
  intros Hn%required_packages_count.
  destruct (filter (λ d, Prepare.target d = t) df_dependents) as [|d ds] eqn:Hf;
    [unfold PrepareAll.MIN_REQUIRED in Hn; simpl in Hn; lia|].
  assert (d ∈ filter (λ d, Prepare.target d = t) df_dependents) as Hd
    by (rewrite Hf; apply elem_of_cons; by left).
  apply list_elem_of_filter in Hd as [<- Hd]. eauto.
Qed.

Lemma latest_dependents_target (packages : list string) (df_releases : list Release)
    (df_dependencies : list Prepare.Dependent) d :
  d ∈ PrepareAll.latest_dependents packages df_releases df_dependencies →
  Prepare.target d ∈ packages.
Proof.
  unfold PrepareAll.latest_dependents.
  intros (d0 & l & [[_ Ht] _]%list_elem_of_filter & _ & _ & ->)
    %drop_duplicates_on_elem%elem_of_merge_inner. done.
Qed.

Lemma active_package_release (df_releases : list Release) p :
  p ∈ PrepareAll.active_packages df_releases →
  ∃ r, r ∈ PrepareAll.active_releases df_releases ∧ package r = p.
Proof.
  intros Hp. pose proof Hp as (r & Hr & <- & _)%active_packages_last.
  exists r. split; [|done]. apply list_elem_of_filter. split; [done|].
  apply drop_duplicates_last_elem in Hr. by rewrite merge_sort_Permutation in Hr.
Qed.

Lemma pandas_concat_Some {A} (data : list (list A)) out :
  pandas_concat data = Some out ↔ data ≠ [] ∧ out = mjoin data.
Proof.
  destruct data as [|x data]; simpl.
  - split; [done|]. by intros [[] _].
  - split; [intros ?; simplify_eq; done|intros [_ ->]; done].
Qed.

Lemma pandas_concat_None {A} (data : list (list A)) :
  pandas_concat data = None ↔ data = [].
Proof. by destruct data. Qed.

Section prepare_run.
Context {Interval : Type} `{Lib Interval}.
Variables (parser : Prepare.Parser Interval) (df_releases : list Release).
Variable df_dependencies : list Prepare.Dependent.

Local Abbreviation packages := (PrepareAll.active_packages df_releases).
Local Abbreviation active := (PrepareAll.active_releases df_releases).
Local Abbreviation latest := (PrepareAll.latest_dependents packages active df_dependencies).
Local Abbreviation required := (PrepareAll.required_packages latest).
Local Abbreviation kept := (filter (λ r, package r ∈ required) active).

Lemma required_is_active p : p ∈ required → p ∈ packages.
Proof.
  intros (d & Hd & <-)%required_packages_targets.
  by eapply latest_dependents_target.
Qed.

Lemma kept_packages p : p ∈ package <$> kept ↔ p ∈ required.
Proof.
  rewrite list_elem_of_fmap. split.
  - intros (r & -> & [??]%list_elem_of_filter). done.
  - intros Hp.
    destruct (active_package_release df_releases p (required_is_active p Hp))
      as (r & Hr & <-).
    exists r. split; [done|]. by apply list_elem_of_filter.
Qed.

Lemma kept_group p :
  p ∈ required →
  filter (λ r, package r = p) kept = filter (λ r, package r = p) df_releases.
Proof.
  intros Hp. unfold PrepareAll.active_releases. rewrite !list_filter_filter.
  apply list_filter_iff. intros r. split; [tauto|].
  intros ->. split_and!; [done..|]. by apply required_is_active.
Qed.

Lemma classified_groups_nil :
  PrepareAll.classified_groups active required = [] ↔ required = [].
Proof.
  unfold PrepareAll.classified_groups, groupby. split.
  - intros Hnil%fmap_nil_inv%fmap_nil_inv.
    apply elem_of_nil_inv. intros p Hp%kept_packages%elem_of_drop_duplicates.
    rewrite Hnil in Hp. by apply elem_of_nil in Hp.
  - intros Hnil.
    assert (kept = []) as ->; [|done].
    apply filter_none. intros r _. rewrite Hnil. apply not_elem_of_nil.
Qed.

Lemma classified_package p :
  filter (λ c, package (Prepare.c_rel c) = p)
    (mjoin (PrepareAll.classified_groups active required)) =
  if decide (p ∈ required)
  then Prepare.classify_group (filter (λ r, package r = p) df_releases)
  else [].
Proof.
  unfold PrepareAll.classified_groups.
  rewrite (filter_groups package (λ c, package (Prepare.c_rel c)) Prepare.classify_group).
  - destruct (decide (p ∈ required)) as [Hp|Hp].
    + rewrite decide_True by (by apply kept_packages). by rewrite kept_group.
    + rewrite decide_False; [done|]. by rewrite kept_packages.
  - intros g c Hc. exists (Prepare.c_rel c). split; [|done].
    by apply classify_group_rel_elem.
Qed.
End prepare_run.


